(** * Ofra-CV-Site: the translation service, the gallery and the lazy-load hook

    A shallow embedding of
      - [src/services/I18nService.ts]  (class [I18nService]),
      - [src/components/Gallery.tsx]   (the lightbox and per-image state),
      - [src/hooks/useLazyLoad.ts] and [src/components/LazyImage.tsx],
    followed by the properties of these modules.

    JavaScript strings are modelled by [string]; every operation used by the
    code ([split] on a dot, matching double braces, the dollar patterns of
    [String.prototype.replace]) only inspects ASCII characters, so reading a
    string byte-wise or code-unit-wise gives the same result. *)

From stdpp Require Import base option list strings gmap.
From Stdlib Require Import Ascii String ZArith Lia.
From Stdlib Require QArith Qcanon.

Local Open Scope string_scope.
Local Set Warnings "-register-all".

(** ** A fragment of the JavaScript run-time *)

Module JS.

(** [s.split(sep)] for a one-character separator: an empty string gives one
    empty piece, [n] separators give [n+1] pieces. *)
Fixpoint split (sep : ascii) (s : string) : list string :=
  match s with
  | EmptyString => [EmptyString]
  | String c s' =>
      if decide (c = sep) then EmptyString :: split sep s'
      else match split sep s' with
           | piece :: pieces => String c piece :: pieces
           | [] => [String c EmptyString]
           end
  end.

(** [TranslationData] (I18nService.ts, lines 9-11): a string, or an object
    whose own properties are again translation data. *)
Inductive tdata : Type :=
  | TStr (s : string)
  | TObj (props : gmap string tdata).

(** What the variable [value] of [translate] can hold.  Besides translation
    data it can reach what every object inherits: [Object.prototype] itself
    (through [__proto__]), its built-in methods, and [null] (the prototype of
    [Object.prototype]). *)
Inductive value : Type :=
  | VData (d : tdata)
  | VObjectPrototype
  | VBuiltinFunction
  | VNull.

(** The property names of [Object.prototype] (ECMA-262, 20.1.3 and B.2.2). *)
Definition object_prototype_members : list string :=
  [ "constructor"; "hasOwnProperty"; "isPrototypeOf"; "propertyIsEnumerable";
    "toLocaleString"; "toString"; "valueOf"; "__proto__";
    "__defineGetter__"; "__defineSetter__";
    "__lookupGetter__"; "__lookupSetter__" ].

Definition inherited (k : string) : bool :=
  bool_decide (k ∈ object_prototype_members).

(** [ToBoolean(v)]: among the values above only the empty string and [null]
    are falsy. *)
Definition truthy (v : value) : bool :=
  match v with
  | VData (TStr s) => negb (bool_decide (s = ""))
  | VData (TObj _) => true
  | VObjectPrototype => true
  | VBuiltinFunction => true
  | VNull => false
  end.

(** [typeof v === 'object'] (true of [null], false of functions). *)
Definition typeof_object (v : value) : bool :=
  match v with
  | VData (TObj _) | VObjectPrototype | VNull => true
  | VData (TStr _) | VBuiltinFunction => false
  end.

(** [typeof v === 'string']. *)
Definition typeof_string (v : value) : option string :=
  match v with
  | VData (TStr s) => Some s
  | _ => None
  end.

(** [k in v], for [v] an object: own properties first, then the prototype
    chain. *)
Definition has_property (k : string) (v : value) : bool :=
  match v with
  | VData (TObj props) => bool_decide (is_Some (props !! k)) || inherited k
  | VObjectPrototype => inherited k
  | _ => false
  end.

(** [v[k]], where [k in v] holds.  The accessor [__proto__] answers the
    prototype of the receiver; every other inherited member is a function. *)
Definition get_property (k : string) (v : value) : value :=
  match v with
  | VData (TObj props) =>
      match props !! k with
      | Some d => VData d
      | None => if decide (k = "__proto__") then VObjectPrototype
                else VBuiltinFunction
      end
  | VObjectPrototype =>
      if decide (k = "__proto__") then VNull else VBuiltinFunction
  | _ => VNull
  end.

(** *** Regular expressions and [String.prototype.replace] *)

(** The syntax characters of a pattern (ECMA-262, 22.2.1). *)
Definition syntax_characters : list ascii :=
  list_ascii_of_string "^$\.*+?()[]{}|".

Definition is_digit (c : ascii) : bool :=
  bool_decide (c ∈ list_ascii_of_string "0123456789").

(** [DecimalDigits], [DecimalDigits ,] or [DecimalDigits , DecimalDigits]:
    between braces such a text is a quantifier and not a literal. *)
Fixpoint digits_then (after_digits : list ascii -> bool) (seen : bool)
    (cs : list ascii) : bool :=
  match cs with
  | [] => seen && after_digits []
  | c :: cs' =>
      if is_digit c then digits_then after_digits true cs'
      else seen && after_digits cs
  end.

Definition quantifier_body (name : string) : bool :=
  digits_then
    (fun rest =>
       match rest with
       | [] => true
       | c :: rest' =>
           bool_decide (c = ","%char) &&
           (bool_decide (rest' = []) ||
            digits_then (fun r => bool_decide (r = [])) false rest')
       end)
    false (list_ascii_of_string name).

(** A name is plain when the source text made of two opening braces, the
    name and two closing braces denotes, as a regular expression without the
    [u] flag, exactly that sequence of characters: the name holds no syntax
    character and does not read as the body of a quantifier (after the first
    brace, a second brace with digits would ask for repetitions of the
    first). *)
Definition plain_name (name : string) : bool :=
  forallb (fun c => negb (bool_decide (c ∈ syntax_characters)))
          (list_ascii_of_string name)
  && negb (quantifier_body name).

(** [GetSubstitution] (ECMA-262, 22.1.3.19.1) for a match without capture
    groups: two dollars give one, dollar-ampersand the matched text,
    dollar-backtick what precedes the match, dollar-quote what follows it;
    any other dollar stands for itself. *)
Fixpoint get_substitution (matched before after template : string) : string :=
  match template with
  | EmptyString => EmptyString
  | String c rest =>
      if decide (c = "$"%char) then
        match rest with
        | String d rest' =>
            if decide (d = "$"%char) then
              String "$" (get_substitution matched before after rest')
            else if decide (d = "&"%char) then
              matched ++ get_substitution matched before after rest'
            else if decide (d = "`"%char) then
              before ++ get_substitution matched before after rest'
            else if decide (d = "'"%char) then
              after ++ get_substitution matched before after rest'
            else String c (get_substitution matched before after rest)
        | EmptyString => String c EmptyString
        end
      else String c (get_substitution matched before after rest)
  end.

Fixpoint drop_chars (n : nat) (s : string) : string :=
  match n, s with
  | S n', String _ s' => drop_chars n' s'
  | _, _ => s
  end.

(** [subject.replace(new RegExp(pat, 'g'), template)] for a non-empty literal
    [pat]: the matches are found from left to right and do not overlap.
    [before] is the part of the subject already scanned, [skip] the number
    of characters of the current match still to pass over. *)
Fixpoint replace_scan (pat template : string) (skip : nat)
    (before rest : string) : string :=
  match rest with
  | EmptyString => EmptyString
  | String c rest' =>
      match skip with
      | S skip' =>
          replace_scan pat template skip' (before ++ String c EmptyString) rest'
      | O =>
          if String.prefix pat rest then
            get_substitution pat before
              (drop_chars (String.length pat) rest) template
            ++ replace_scan pat template (String.length pat - 1)
                 (before ++ String c EmptyString) rest'
          else
            String c (replace_scan pat template 0
                        (before ++ String c EmptyString) rest')
      end
  end.

Definition replace_all (pat template subject : string) : string :=
  replace_scan pat template 0 EmptyString subject.

(** *** Objects used as records of flags *)

(** [o[k] = v] for a primitive [v] on an ordinary object: the inherited
    setter [__proto__] discards a primitive, so no property is created
    unless the object has an own property of that name. *)
Definition assign_property {A} (k : string) (v : A) (o : gmap string A)
    : gmap string A :=
  if decide (k = "__proto__") then
    match o !! k with Some _ => <[k := v]> o | None => o end
  else <[k := v]> o.

(** The object literal made of a spread and a computed key, as in
    [{ ...o, [k]: v }]: a computed key always defines an own property. *)
Definition spread_with {A} (o : gmap string A) (k : string) (v : A)
    : gmap string A :=
  <[k := v]> o.

End JS.

(** ** The translation service (I18nService.ts) *)

Module I18n.
Import JS.

Inductive Language : Type := he | en.
Inductive TextDirection : Type := rtl | ltr.

#[global] Instance Language_eq_dec : EqDecision Language.
Proof. solve_decision. Defined.

Definition language_code (l : Language) : string :=
  match l with he => "he" | en => "en" end.

Definition STORAGE_KEY : string := "portfolio_language".

(** A listener is an opaque function; two listeners are the same element of
    the [Set] exactly when they are the same function object, which the
    number stands for.  Calling a listener is recorded in the trace; the
    listener returns normally and does not call back into the service. *)
Definition listener : Type := nat.

(** The [translations] field: one object per language. *)
Record Translations : Type := mkTranslations {
  tr_he : gmap string tdata;
  tr_en : gmap string tdata
}.

Definition dictionary (t : Translations) (l : Language) : gmap string tdata :=
  match l with he => tr_he t | en => tr_en t end.

Record I18nService : Type := mkService {
  currentLanguage : Language;
  translations : Translations;
  listeners : list listener   (* a [Set], in insertion order *)
}.

(** *** The world around the service *)

(** [localStorage]: its items, and whether an access throws. *)
Inductive storage_health : Type :=
  | Healthy
  | QuotaExceeded      (* [setItem] throws, [getItem] works *)
  | Unavailable.       (* every access throws *)

Record Storage : Type := mkStorage {
  items : gmap string string;
  health : storage_health
}.

Inductive exn : Type :=
  | QuotaExceededError
  | SecurityError.

Inductive event : Type :=
  | Called (l : listener) (lang : Language)   (* [listener(lang)] ran *)
  | Warned (message : string) (e : exn).      (* [console.warn] *)

#[global] Instance exn_eq_dec : EqDecision exn.
Proof. solve_decision. Defined.
#[global] Instance event_eq_dec : EqDecision event.
Proof. solve_decision. Defined.

Record world : Type := mkWorld {
  service : I18nService;
  localStorage : Storage;
  trace : list event        (* oldest event first *)
}.

(** A method either returns or throws, and leaves a new world behind. *)
Inductive result (A : Type) : Type :=
  | Return (a : A)
  | Throw (e : exn).
Arguments Return {A} a.
Arguments Throw {A} e.

Definition M (A : Type) : Type := world -> result A * world.

#[global] Instance M_ret : MRet M := fun A a w => (Return a, w).
#[global] Instance M_bind : MBind M := fun A B f m w =>
  match m w with
  | (Return a, w') => f a w'
  | (Throw e, w') => (Throw e, w')
  end.

Definition try_catch {A} (body : M A) (handler : exn -> M A) : M A :=
  fun w =>
    match body w with
    | (Return a, w') => (Return a, w')
    | (Throw e, w') => handler e w'
    end.

Definition emit (e : event) : M unit :=
  fun w => (Return tt, mkWorld (service w) (localStorage w) (trace w ++ [e])).

Definition console_warn (message : string) (e : exn) : M unit :=
  emit (Warned message e).

Definition this : M I18nService := fun w => (Return (service w), w).

Definition assign (svc : I18nService) : M unit :=
  fun w => (Return tt, mkWorld svc (localStorage w) (trace w)).

Definition localStorage_getItem (k : string) : M (option string) :=
  fun w =>
    match health (localStorage w) with
    | Unavailable => (Throw SecurityError, w)
    | _ => (Return (items (localStorage w) !! k), w)
    end.

Definition localStorage_setItem (k v : string) : M unit :=
  fun w =>
    match health (localStorage w) with
    | Healthy =>
        (Return tt,
         mkWorld (service w)
                 (mkStorage (<[k := v]> (items (localStorage w))) Healthy)
                 (trace w))
    | QuotaExceeded => (Throw QuotaExceededError, w)
    | Unavailable => (Throw SecurityError, w)
    end.

(** *** The methods *)

(** Lines 34-44. *)
Definition loadLanguageFromStorage : M (option Language) :=
  try_catch
    (stored ← localStorage_getItem STORAGE_KEY;
     if decide (stored = Some "he") then mret (Some he)
     else if decide (stored = Some "en") then mret (Some en)
     else mret None)
    (fun error =>
       console_warn "Failed to load language from localStorage:" error;;
       mret None).

(** Lines 49-55. *)
Definition saveLanguageToStorage (language : Language) : M unit :=
  try_catch
    (localStorage_setItem STORAGE_KEY (language_code language))
    (fun error =>
       console_warn "Failed to save language to localStorage:" error).

(** Lines 25-29: the constructor; it replaces the service of the world. *)
Definition constructor (defaultLanguage : Language) : M unit :=
  stored ← loadLanguageFromStorage;
  assign (mkService (default defaultLanguage stored)
                    (mkTranslations ∅ ∅) []).

(** Lines 142-144: [Set.prototype.forEach] visits the elements in insertion
    order; each callback reads [this.currentLanguage] when it runs. *)
Fixpoint forEach (ls : list listener) (callback : listener -> M unit)
    : M unit :=
  match ls with
  | [] => mret tt
  | l :: ls' => callback l;; forEach ls' callback
  end.

Definition notifyListeners : M unit :=
  svc ← this;
  forEach (listeners svc)
    (fun l => svc' ← this; emit (Called l (currentLanguage svc'))).

(** Lines 60-64. *)
Definition setLanguage (language : Language) : M unit :=
  svc ← this;
  assign (mkService language (translations svc) (listeners svc));;
  saveLanguageToStorage language;;
  notifyListeners.

Definition getLanguage : M Language :=
  svc ← this; mret (currentLanguage svc).

Definition getDirection : M TextDirection :=
  svc ← this;
  mret (if decide (currentLanguage svc = he) then rtl else ltr).

(** Lines 83-85. *)
Definition loadTranslations (language : Language) (data : gmap string tdata)
    : M unit :=
  svc ← this;
  assign (mkService (currentLanguage svc)
            (match language with
             | he => mkTranslations data (tr_en (translations svc))
             | en => mkTranslations (tr_he (translations svc)) data
             end)
            (listeners svc)).

(** [Set.prototype.add] and [Set.prototype.delete]. *)
Definition set_add (l : listener) (ls : list listener) : list listener :=
  if decide (l ∈ ls) then ls else ls ++ [l].

Definition set_delete (l : listener) (ls : list listener) : list listener :=
  filter (fun l' => l' ≠ l) ls.

(** The arrow function returned by [subscribe] (line 136); it answers what
    [Set.prototype.delete] answers. *)
Definition unsubscribe (l : listener) : M bool :=
  svc ← this;
  assign (mkService (currentLanguage svc) (translations svc)
                    (set_delete l (listeners svc)));;
  mret (bool_decide (l ∈ listeners svc)).

(** Lines 134-137. *)
Definition subscribe (l : listener) : M (M bool) :=
  svc ← this;
  assign (mkService (currentLanguage svc) (translations svc)
                    (set_add l (listeners svc)));;
  mret (unsubscribe l).

(** *** [translate] (lines 91-129) *)

(** The test of lines 97 and 103. *)
Definition can_descend (k : string) (v : value) : bool :=
  truthy v && typeof_object v && has_property k v.

(** The inner loop, lines 102-109; [None] is the [return key] of line 107. *)
Fixpoint fallback_walk (v : value) (keys : list string) : option value :=
  match keys with
  | [] => Some v
  | fallbackKey :: keys' =>
      if can_descend fallbackKey v
      then fallback_walk (get_property fallbackKey v) keys'
      else None
  end.

(** The outer loop, lines 96-112, over the segments [ks] still to visit:
    at the first segment that cannot be followed the English dictionary is
    walked with all the segments [keys], and the loop is left. *)
Fixpoint walk (english : value) (keys : list string) (v : value)
    (ks : list string) : option value :=
  match ks with
  | [] => Some v
  | k :: ks' =>
      if can_descend k v
      then walk english keys (get_property k v) ks'
      else fallback_walk english keys
  end.

(** [new RegExp(`{{${paramKey}}}`, 'g')].  For a plain parameter name the
    expression matches the placeholder text itself; any other name gives an
    expression with operators of its own (or none at all, when the text does
    not parse), which is outside this model: [None]. *)
Definition placeholder (paramKey : string) : string :=
  "{{" ++ paramKey ++ "}}".

Definition placeholder_regexp (paramKey : string) : option string :=
  if plain_name paramKey then Some (placeholder paramKey) else None.

(** Lines 121-125: [Object.entries(params).reduce(...)]; [entries] are the
    entries of [params] in the order of [Object.entries]. *)
Fixpoint interpolate (entries : list (string * string)) (result : string)
    : option string :=
  match entries with
  | [] => Some result
  | (paramKey, paramValue) :: entries' =>
      pat ← placeholder_regexp paramKey;
      interpolate entries' (replace_all pat paramValue result)
  end.

(** [translate(key, params)]; [params = None] is a call without the second
    argument.  The answer [None] is reserved for the calls whose regular
    expressions are outside the model. *)
Definition translate (svc : I18nService) (key : string)
    (params : option (list (string * string))) : option string :=
  let keys := split "." key in
  match walk (VData (TObj (dictionary (translations svc) en))) keys
             (VData (TObj (dictionary (translations svc) (currentLanguage svc))))
             keys with
  | None => Some key
  | Some v =>
      match typeof_string v with
      | None => Some key
      | Some s =>
          match params with
          | Some entries => interpolate entries s
          | None => Some s
          end
      end
  end.

(** *** Vocabulary of the specification *)

(** The value a dotted path denotes in a dictionary, following own
    properties only; [None] when a segment is missing (or when the path
    would have to go through a string). *)
Fixpoint resolve (d : tdata) (keys : list string) : option tdata :=
  match keys with
  | [] => Some d
  | k :: keys' =>
      match d with
      | TObj props => d' ← props !! k; resolve d' keys'
      | TStr _ => None
      end
  end.

Definition active_dictionary (svc : I18nService) : tdata :=
  TObj (dictionary (translations svc) (currentLanguage svc)).

Definition english_dictionary (svc : I18nService) : tdata :=
  TObj (dictionary (translations svc) en).

(** The value a key resolves to: the one of the active dictionary, and the
    one of the English dictionary when the active dictionary has no such
    path. *)
Definition resolved (svc : I18nService) (key : string) : option tdata :=
  match resolve (active_dictionary svc) (split "." key) with
  | Some d => Some d
  | None => resolve (english_dictionary svc) (split "." key)
  end.

Definition string_leaf (o : option tdata) : option string :=
  match o with
  | Some (TStr s) => Some s
  | _ => None
  end.

(** A template as the specification reads it: pieces of literal text and
    placeholders.  [render] gives the string the dictionary holds. *)
Inductive segment : Type :=
  | Text (t : string)
  | Hole (name : string).

Definition render_segment (seg : segment) : string :=
  match seg with
  | Text t => t
  | Hole name => placeholder name
  end.

Fixpoint render (segs : list segment) : string :=
  match segs with
  | [] => EmptyString
  | seg :: segs' => render_segment seg ++ render segs'
  end.

(** The substitution the specification describes: a placeholder whose name
    is a parameter becomes the value of that parameter, any other
    placeholder stays. *)
Fixpoint param_value (name : string) (entries : list (string * string))
    : option string :=
  match entries with
  | [] => None
  | (paramKey, paramValue) :: entries' =>
      if decide (paramKey = name) then Some paramValue
      else param_value name entries'
  end.

Definition fill (entries : list (string * string)) (seg : segment) : segment :=
  match seg with
  | Text t => Text t
  | Hole name =>
      match param_value name entries with
      | Some paramValue => Text paramValue
      | None => Hole name
      end
  end.

Fixpoint has_char (c : ascii) (s : string) : bool :=
  match s with
  | EmptyString => false
  | String d s' => bool_decide (d = c) || has_char c s'
  end.

(** Braces occur in a well-formed template only as the delimiters of its
    placeholders. *)
Definition well_formed_segment (seg : segment) : bool :=
  match seg with
  | Text t => negb (has_char "{" t)
  | Hole name => negb (has_char "{" name) && negb (has_char "}" name)
  end.

(** An ordinary parameter: a plain name, and a value without dollar sign or
    opening brace. *)
Definition ordinary_entry (entry : string * string) : bool :=
  plain_name entry.1 && negb (has_char "$" entry.2)
  && negb (has_char "{" entry.2).

(** The values that are not translation data. *)
Definition foreign (v : value) : Prop :=
  match v with
  | VData _ => False
  | _ => True
  end.

(** *** Histories of calls *)

Inductive op : Type :=
  | SetLanguage (language : Language)
  | Subscribe (l : listener)
  | Unsubscribe (l : listener)
  | LoadTranslations (language : Language) (data : gmap string tdata).

Definition perform (o : op) : M unit :=
  match o with
  | SetLanguage language => setLanguage language
  | Subscribe l => subscribe l;; mret tt
  | Unsubscribe l => unsubscribe l;; mret tt
  | LoadTranslations language data => loadTranslations language data
  end.

(** The listeners a call leaves registered. *)
Definition listeners_after (o : op) (ls : list listener) : list listener :=
  match o with
  | Subscribe l => set_add l ls
  | Unsubscribe l => set_delete l ls
  | _ => ls
  end.

Fixpoint perform_all (os : list op) : M unit :=
  match os with
  | [] => mret tt
  | o :: os' => perform o;; perform_all os'
  end.

(** The world right after [new I18nService(defaultLanguage)], given the
    storage found at that moment. *)
Definition boot (defaultLanguage : Language) (storage : Storage) : world :=
  (constructor defaultLanguage
     (mkWorld (mkService defaultLanguage (mkTranslations ∅ ∅) [])
              storage [])).2.

Inductive reachable : world -> Prop :=
  | reachable_boot defaultLanguage storage :
      reachable (boot defaultLanguage storage)
  | reachable_perform o w :
      reachable w -> reachable (perform o w).2
  | reachable_storage w storage :
      reachable w ->
      reachable (mkWorld (service w) storage (trace w)).

(** What [saveLanguageToStorage] leaves in the storage and in the console,
    by the health of the storage. *)
Definition storage_after_save (language : Language) (st : Storage) : Storage :=
  match health st with
  | Healthy => mkStorage (<[STORAGE_KEY := language_code language]> (items st))
                         Healthy
  | _ => st
  end.

Definition save_events (st : Storage) : list event :=
  match health st with
  | Healthy => []
  | QuotaExceeded =>
      [Warned "Failed to save language to localStorage:" QuotaExceededError]
  | Unavailable =>
      [Warned "Failed to save language to localStorage:" SecurityError]
  end.

Definition notifications (language : Language) (ls : list listener)
    : list event :=
  map (fun l => Called l language) ls.

(** The events a computation adds to the trace. *)
Definition emitted {A} (m : M A) (w : world) : list event :=
  drop (List.length (trace w)) (trace (m w).2).

Definition calls_of (l : listener) (evs : list event) : list Language :=
  omap (fun e => match e with
                 | Called l' lang => if decide (l' = l) then Some lang else None
                 | Warned _ _ => None
                 end) evs.

End I18n.

(** ** The gallery (Gallery.tsx) *)

Module Gallery.
Import JS.

Local Open Scope Z_scope.

Record GalleryImage : Type := mkImage {
  id : string;
  filename : string;
  thumbnailUrl : string;
  fullUrl : string;
  captionKey : string;
  alt : string;
  width : option Z;
  height : option Z
}.

(** The prop [images] and the values the four calls of [useState] of lines
    33-36 give to one render. *)
Record state : Type := mkState {
  images : list GalleryImage;
  selectedIndex : option Z;
  isLightboxOpen : bool;
  loadingStates : gmap string bool;
  errorStates : gmap string bool
}.

Definition images_length (st : state) : Z := Z.of_nat (List.length (images st)).

(** *** The bindings of the function body *)

Inductive exn : Type := ReferenceError (name : string).

(** The names the body of [Gallery] declares with [const] (lines 31-115).
    Such a binding exists from the entry of the body, but it cannot be read
    before its declaration has been evaluated: until then a read throws a
    [ReferenceError]. *)
Definition body_constants : list string :=
  [ "i18nService"; "language"; "setLanguage";
    "selectedIndex"; "setSelectedIndex";
    "isLightboxOpen"; "setIsLightboxOpen";
    "loadingStates"; "setLoadingStates";
    "errorStates"; "setErrorStates";
    "handleThumbnailClick"; "handleClose"; "handleNext"; "handlePrevious";
    "handleImageLoad"; "handleImageError"; "handleLightboxOverlayClick";
    "selectedImage" ].

(** The three effects of the component. *)
Inductive effect : Type :=
  | SubscriptionEffect    (* lines 38-45 *)
  | KeyboardEffect        (* lines 48-67 *)
  | LoadingEffect.        (* lines 70-76 *)

(** One call of the component: the constants initialised so far and the
    effects handed to [useEffect] so far. *)
Record frame : Type := mkFrame {
  initialised : list string;
  registered : list effect
}.

Definition entry : frame := mkFrame [] [].

Inductive outcome (A : Type) : Type :=
  | Done (a : A)
  | Thrown (e : exn).
Arguments Done {A} a.
Arguments Thrown {A} e.

Definition Render (A : Type) : Type := frame -> outcome A * frame.

#[global] Instance Render_ret : MRet Render := fun A a f => (Done a, f).
#[global] Instance Render_bind : MBind Render := fun A B k m f =>
  match m f with
  | (Done a, f') => k a f'
  | (Thrown e, f') => (Thrown e, f')
  end.

Definition mem (name : string) (names : list string) : bool :=
  existsb (String.eqb name) names.

(** The end of a declaration [const name = ...] (or of a destructuring
    declaration of several names). *)
Definition initialise (names : list string) : Render unit :=
  fun f => (Done tt, mkFrame (initialised f ++ names) (registered f)).

(** The evaluation of an identifier.  Parameters and the bindings of the
    module are always there; a constant of the body is there once it has
    been initialised. *)
Definition read (name : string) : Render unit :=
  fun f =>
    if mem name body_constants && negb (mem name (initialised f))
    then (Thrown (ReferenceError name), f)
    else (Done tt, f).

Fixpoint read_each (names : list string) : Render unit :=
  match names with
  | [] => mret tt
  | name :: names' => read name;; read_each names'
  end.

(** [useEffect(() => ..., [deps])]: the function expression reads nothing
    when it is created; the array of dependencies is evaluated, element by
    element, before the call. *)
Definition register (eff : effect) : Render unit :=
  fun f => (Done tt, mkFrame (initialised f) (registered f ++ [eff])).

Definition useEffect (eff : effect) (deps : list string) : Render unit :=
  read_each deps;; register eff.

(** [useCallback(() => ..., [deps])], likewise. *)
Definition useCallback (deps : list string) : Render unit :=
  read_each deps.

(** *** What a render returns (lines 115-196) *)

(** [images[index]]: [undefined] outside the list. *)
Definition array_get (imgs : list GalleryImage) (index : Z)
    : option GalleryImage :=
  if bool_decide (0 <= index) then imgs !! Z.to_nat index else None.

(** Line 115. *)
Definition selectedImage (st : state) : option GalleryImage :=
  match selectedIndex st with
  | Some index => array_get (images st) index
  | None => None
  end.

(** The lightbox of lines 144-194: the image on display and the [disabled]
    attributes of lines 165 and 186. *)
Record lightbox_view : Type := mkLightbox {
  shown : GalleryImage;
  previous_disabled : bool;
  next_disabled : bool
}.

(** The thumbnails of lines 121-140, one for each image, and the lightbox
    when the guard of line 144 lets it through. *)
Record rendered : Type := mkRendered {
  thumbnails : list GalleryImage;
  lightbox_of : option lightbox_view
}.

Definition view (st : state) : rendered :=
  mkRendered (images st)
    (if isLightboxOpen st then
       match selectedImage st with
       | Some image =>
           Some (mkLightbox image
                   (bool_decide (selectedIndex st = Some 0))
                   (bool_decide (selectedIndex st
                                 = Some (images_length st - 1))))
       | None => None
       end
     else None).

(** *** The component (lines 30-197), statement by statement *)

Definition Gallery (st : state) : Render rendered :=
  initialise ["i18nService"];;                                  (* 31 *)
  read "i18nService";;
  initialise ["language"; "setLanguage"];;                      (* 32 *)
  initialise ["selectedIndex"; "setSelectedIndex"];;            (* 33 *)
  initialise ["isLightboxOpen"; "setIsLightboxOpen"];;          (* 34 *)
  initialise ["loadingStates"; "setLoadingStates"];;            (* 35 *)
  initialise ["errorStates"; "setErrorStates"];;                (* 36 *)
  useEffect SubscriptionEffect ["i18nService"];;                (* 38-45 *)
  useEffect KeyboardEffect                                      (* 48-67 *)
    ["isLightboxOpen"; "handleClose"; "handleNext"; "handlePrevious"];;
  useEffect LoadingEffect ["images"];;                          (* 70-76 *)
  initialise ["handleThumbnailClick"];;                         (* 78-81 *)
  useCallback [];;
  initialise ["handleClose"];;                                  (* 83-86 *)
  useCallback ["selectedIndex"; "images"];;
  initialise ["handleNext"];;                                   (* 88-92 *)
  useCallback ["selectedIndex"];;
  initialise ["handlePrevious"];;                               (* 94-98 *)
  initialise ["handleImageLoad"];;                              (* 100-102 *)
  initialise ["handleImageError"];;                             (* 104-107 *)
  initialise ["handleLightboxOverlayClick"];;                   (* 109-113 *)
  read_each ["selectedIndex"; "images"];;
  initialise ["selectedImage"];;                                (* 115 *)
  read_each ["className"; "images"; "i18nService";              (* 118-141 *)
             "isLightboxOpen"; "selectedImage"];;               (* 144 *)
  (if isLightboxOpen st && bool_decide (is_Some (selectedImage st))
   then read_each ["handleLightboxOverlayClick"; "handleClose";
                   "i18nService"; "handlePrevious"; "selectedIndex";
                   "selectedImage"; "handleNext"; "images"]     (* 145-193 *)
   else mret tt);;
  mret (view st).

(** *** The closures the body declares *)

(** Each handler is given as what its calls of the setters make of the
    state of the render that created it. *)

(** Lines 78-81. *)
Definition handleThumbnailClick (index : Z) (st : state) : state :=
  mkState (images st) (Some index) true (loadingStates st) (errorStates st).

(** Lines 83-86. *)
Definition handleClose (st : state) : state :=
  mkState (images st) None false (loadingStates st) (errorStates st).

(** Lines 88-92. *)
Definition handleNext (st : state) : state :=
  match selectedIndex st with
  | Some i =>
      if bool_decide (i < images_length st - 1)
      then mkState (images st) (Some (i + 1)) (isLightboxOpen st)
                   (loadingStates st) (errorStates st)
      else st
  | None => st
  end.

(** Lines 94-98. *)
Definition handlePrevious (st : state) : state :=
  match selectedIndex st with
  | Some i =>
      if bool_decide (i > 0)
      then mkState (images st) (Some (i - 1)) (isLightboxOpen st)
                   (loadingStates st) (errorStates st)
      else st
  | None => st
  end.

(** Lines 100-102. *)
Definition handleImageLoad (imageId : string) (st : state) : state :=
  mkState (images st) (selectedIndex st) (isLightboxOpen st)
          (spread_with (loadingStates st) imageId false) (errorStates st).

(** Lines 104-107. *)
Definition handleImageError (imageId : string) (st : state) : state :=
  mkState (images st) (selectedIndex st) (isLightboxOpen st)
          (spread_with (loadingStates st) imageId false)
          (spread_with (errorStates st) imageId true).

(** Lines 109-113: the overlay closes the lightbox when it is the target
    of the click itself. *)
Definition handleLightboxOverlayClick (target_is_currentTarget : bool)
    (st : state) : state :=
  if target_is_currentTarget then handleClose st else st.

(** Lines 51-63, the listener of the keyboard effect. *)
Definition handleKeyDown (key : string) (st : state) : state :=
  if decide (key = "Escape") then handleClose st
  else if decide (key = "ArrowLeft") then handlePrevious st
  else if decide (key = "ArrowRight") then handleNext st
  else st.

(** Lines 48-67: the effect registers the listener only when the lightbox
    is open (line 49). *)
Definition keyboard_effect (st : state)
    : option (string -> state -> state) :=
  if isLightboxOpen st then Some handleKeyDown else None.

(** Lines 70-76: the effect that depends on [images]. *)
Definition initialLoadingStates (imgs : list GalleryImage) : gmap string bool :=
  foldl (fun acc image => assign_property (id image) true acc) ∅ imgs.

Definition loading_effect (st : state) : state :=
  mkState (images st) (selectedIndex st) (isLightboxOpen st)
          (initialLoadingStates (images st)) (errorStates st).

(** *** The component under React *)

(** One call of the component by React.  The repository has no error
    boundary: when the call throws, nothing of it is committed. *)
Definition render (st : state) : exn + rendered * list effect :=
  match Gallery st entry with
  | (Thrown e, _) => inl e
  | (Done v, f) => inr (v, registered f)
  end.

Definition has_effect (eff : effect) (effs : list effect) : bool :=
  existsb (fun eff' => match eff, eff' with
                       | SubscriptionEffect, SubscriptionEffect
                       | KeyboardEffect, KeyboardEffect
                       | LoadingEffect, LoadingEffect => true
                       | _, _ => false
                       end) effs.

(** A gallery in the document: the state React holds for it and what its
    last render returned. *)
Record mounted : Type := mkMounted {
  hooks : state;
  document : rendered
}.

(** A render and what follows it: the effects run only after a render that
    returned, the loading effect only when [images] is new, and the state
    it sets is rendered in turn. *)
Definition commit (images_changed : bool) (st : state) : exn + mounted :=
  match render st with
  | inl e => inl e
  | inr (_, effs) =>
      let st' := if images_changed && has_effect LoadingEffect effs
                 then loading_effect st else st in
      match render st' with
      | inl e => inl e
      | inr (v, _) => inr (mkMounted st' v)
      end
  end.

(** The first render. *)
Definition mount (imgs : list GalleryImage) : exn + mounted :=
  commit true (mkState imgs None false ∅ ∅).

(** What can happen to a gallery in the document. *)
Inductive event : Type :=
  | ThumbnailClick (index : nat)
  | Close
  | Next
  | Previous
  | OverlayClick (target_is_currentTarget : bool)
  | KeyDown (key : string)
  | ImageLoad (imageId : string)
  | ImageError (imageId : string)
  | SetImages (imgs : list GalleryImage).

(** An event reaches its handler only through an element of the document:
    a thumbnail for each image, the buttons of a lightbox on display (a
    disabled button does not click), the listener of the keyboard effect. *)
Definition handle (ev : event) (m : mounted) : state :=
  let st := hooks m in
  match ev with
  | ThumbnailClick index =>
      if bool_decide (index < List.length (thumbnails (document m)))%nat
      then handleThumbnailClick (Z.of_nat index) st else st
  | Close =>
      match lightbox_of (document m) with
      | Some _ => handleClose st
      | None => st
      end
  | Next =>
      match lightbox_of (document m) with
      | Some box => if next_disabled box then st else handleNext st
      | None => st
      end
  | Previous =>
      match lightbox_of (document m) with
      | Some box => if previous_disabled box then st else handlePrevious st
      | None => st
      end
  | OverlayClick target_is_currentTarget =>
      match lightbox_of (document m) with
      | Some _ => handleLightboxOverlayClick target_is_currentTarget st
      | None => st
      end
  | KeyDown key =>
      match keyboard_effect st with
      | Some listener => listener key st
      | None => st
      end
  | ImageLoad imageId =>
      if mem imageId (map id (thumbnails (document m)))
      then handleImageLoad imageId st else st
  | ImageError imageId =>
      if mem imageId (map id (thumbnails (document m)))
      then handleImageError imageId st else st
  | SetImages imgs =>
      mkState imgs (selectedIndex st) (isLightboxOpen st)
              (loadingStates st) (errorStates st)
  end.

Definition step (ev : event) (m : mounted) : exn + mounted :=
  commit (match ev with SetImages _ => true | _ => false end) (handle ev m).

(** A gallery from its first render on. *)
Definition session (imgs : list GalleryImage) (evs : list event)
    : exn + mounted :=
  foldl (fun r ev => match r with
                     | inl e => inl e
                     | inr m => step ev m
                     end)
        (mount imgs) evs.

(** *** What can be observed of a gallery *)

(** The lightbox state of the specification. *)
Inductive LightboxState : Type :=
  | Closed
  | Open (selected : Z).

Definition lightbox (st : state) : LightboxState :=
  match isLightboxOpen st, selectedIndex st with
  | true, Some i => Open i
  | _, _ => Closed
  end.

(** The lightbox state of a gallery, when there is a gallery. *)
Definition lightbox_state (r : exn + mounted) : option LightboxState :=
  match r with
  | inr m => Some (lightbox (hooks m))
  | inl _ => None
  end.

(** The loading flag and the errored flag of an image. *)
Definition loading_flag (r : exn + mounted) (imageId : string)
    : option bool :=
  match r with
  | inr m => loadingStates (hooks m) !! imageId
  | inl _ => None
  end.

Definition errored_flag (r : exn + mounted) (imageId : string)
    : option bool :=
  match r with
  | inr m => errorStates (hooks m) !! imageId
  | inl _ => None
  end.

End Gallery.

(** ** The lazy-load hook and the lazy image *)

Module LazyLoad.

(** What the hook needs of the run-time: whether [window] has an
    [IntersectionObserver]. *)
Record runtime : Type := mkRuntime {
  has_IntersectionObserver : bool
}.

Record UseLazyLoadOptions : Type := mkOptions {
  rootMargin : string;
  threshold : Qcanon.Qc
}.

(** The two pieces of state of the hook, and the observer its effect
    created (to be disconnected by the clean-up). *)
Record hook : Type := mkHook {
  isIntersecting : bool;
  hasIntersected : bool;
  observer : option UseLazyLoadOptions
}.

Inductive exn : Type := ReferenceError.

(** [new IntersectionObserver(callback, options)]: the constructor is only
    there when the run-time has it. *)
Definition new_IntersectionObserver (rt : runtime)
    (options : UseLazyLoadOptions) : exn + UseLazyLoadOptions :=
  if has_IntersectionObserver rt then inr options else inl ReferenceError.

(** The first render of the hook (lines 25-26). *)
Definition initial_hook : hook := mkHook false false None.

(** The effect of lines 28-62; [element] is [ref.current]. *)
Definition useLazyLoad_effect (rt : runtime) (options : UseLazyLoadOptions)
    (element : bool) (h : hook) : exn + hook :=
  if negb element then inr h
  else if negb (has_IntersectionObserver rt) then
    inr (mkHook true true (observer h))
  else
    match new_IntersectionObserver rt options with
    | inl e => inl e
    | inr obs => inr (mkHook (isIntersecting h) (hasIntersected h) (Some obs))
    end.

(** The callback of lines 41-50, for the entries in turn. *)
Definition observe_entry (entry_isIntersecting : bool) (h : hook) : hook :=
  mkHook entry_isIntersecting
         (if entry_isIntersecting then true else hasIntersected h)
         (observer h).

Definition observer_callback (entries : list bool) (h : hook) : hook :=
  foldl (fun h' entry => observe_entry entry h') h entries.

(** The clean-up of lines 59-61. *)
Definition useLazyLoad_cleanup (h : hook) : hook :=
  mkHook (isIntersecting h) (hasIntersected h) None.

(** The state of [LazyImage] (lines 35-37). *)
Record image : Type := mkImage {
  isLoading : bool;
  hasError : bool;
  imageSrc : option string
}.

Definition initial_image : image := mkImage true false None.

(** [!imageSrc]: [null] and the empty string are falsy. *)
Definition no_imageSrc (im : image) : bool :=
  match imageSrc im with
  | None => true
  | Some s => bool_decide (s = "")
  end.

(** The effect of lines 39-44, run with the [hasIntersected] of the render
    it belongs to. *)
Definition LazyImage_effect (hasIntersected_now : bool) (src : string)
    (im : image) : image :=
  if hasIntersected_now && no_imageSrc im
  then mkImage (isLoading im) (hasError im) (Some src)
  else im.

Definition handleLoad (im : image) : image :=
  mkImage false (hasError im) (imageSrc im).

Definition handleError (im : image) : image :=
  mkImage false true (imageSrc im).

(** A mounted [LazyImage]: the hook and the component state. *)
Record component : Type := mkComponent {
  the_hook : hook;
  the_image : image
}.

(** The options [LazyImage] passes to the hook (line 34): a margin of 50
    pixels and a threshold of one hundredth. *)
Definition LazyImage_options : UseLazyLoadOptions :=
  mkOptions "50px" (Qcanon.Q2Qc (QArith_base.Qmake 1 100)).

(** Mounting: the container is rendered with the ref attached, then the two
    effects run in the order of their declaration, each with the values of
    the first render. *)
Definition mount (rt : runtime) (src : string) : exn + component :=
  match useLazyLoad_effect rt LazyImage_options true initial_hook with
  | inl e => inl e
  | inr h =>
      inr (mkComponent h
             (LazyImage_effect (hasIntersected initial_hook) src initial_image))
  end.

(** The render caused by a change of state: the effect of [LazyImage] runs
    again when [hasIntersected] (or [imageSrc]) changed. *)
Definition rerender (src : string) (c : component) : component :=
  mkComponent (the_hook c)
    (LazyImage_effect (hasIntersected (the_hook c)) src (the_image c)).

(** What is rendered (lines 59-94). *)
Definition shows_placeholder (im : image) : bool :=
  isLoading im && negb (hasError im).
Definition shows_error (im : image) : bool := hasError im.
Definition renders_img (im : image) : bool :=
  negb (no_imageSrc im) && negb (hasError im).

End LazyLoad.

(** ** Concrete inputs used below *)

Module Examples.
Import JS I18n.

Definition healthy_storage : Storage := mkStorage ∅ Healthy.
Definition full_storage : Storage := mkStorage ∅ QuotaExceeded.

(** The dictionaries of I18nService.test.ts (lines 64-70 and 97-102). *)
Definition english_test_data : gmap string tdata :=
  {[ "navigation" := TObj {[ "about" := TStr "About";
                             "articles" := TStr "Articles" ]};
     "greeting" := TStr "Hello {{name}}" ]}.

Definition hebrew_partial_data : gmap string tdata :=
  {[ "navigation" := TObj {[ "about" := TStr "אודות" ]} ]}.

Definition test_service (lang : Language) : I18nService :=
  mkService lang (mkTranslations hebrew_partial_data english_test_data) [].

(** An English dictionary with an entry named like a member of
    [Object.prototype], and an empty Hebrew dictionary. *)
Definition builder_service : I18nService :=
  mkService he (mkTranslations ∅ {[ "constructor" := TStr "Builder" ]}) [].

Definition picture (name : string) : Gallery.GalleryImage :=
  Gallery.mkImage name (name ++ ".jpg") ("/thumbs/" ++ name)
    ("/full/" ++ name) ("gallery." ++ name) "" None None.

Definition three_pictures : list Gallery.GalleryImage :=
  [picture "a"; picture "b"; picture "c"].

Definition one_picture : list Gallery.GalleryImage := [picture "a"].

Definition empty_service (lang : Language) : I18nService :=
  mkService lang (mkTranslations ∅ ∅) [].

(** A dictionary with an empty entry. *)
Definition blank_service : I18nService :=
  mkService en (mkTranslations ∅ {[ "title" := TStr "" ]}) [].

End Examples.

(** ** More of the translation service *)

Module I18nMore.
Import JS I18n.

(** The pieces of a key put together again, with a dot between two
    neighbours. *)
Fixpoint join_dots (pieces : list string) : string :=
  match pieces with
  | [] => EmptyString
  | [piece] => piece
  | piece :: pieces' => piece ++ "." ++ join_dots pieces'
  end.

(** The argument of the last [setLanguage] of a history; [init] when there
    is none. *)
Definition last_language (init : Language) (os : list op) : Language :=
  foldl (fun lang o => match o with
                       | SetLanguage language => language
                       | _ => lang
                       end) init os.

(** The languages a history sets, in order. *)
Definition languages_set (os : list op) : list Language :=
  omap (fun o => match o with
                 | SetLanguage language => Some language
                 | _ => None
                 end) os.

Definition loads (language : Language) (o : op) : bool :=
  match o with
  | LoadTranslations language' _ => bool_decide (language' = language)
  | _ => false
  end.

(** The listeners called, in the order of the calls. *)
Definition called_listeners (evs : list event) : list listener :=
  omap (fun e => match e with
                 | Called l _ => Some l
                 | Warned _ _ => None
                 end) evs.

(** What the constructor reads in the storage (lines 34-44): a stored [he]
    or [en] when the storage can be read, nothing otherwise. *)
Definition stored_language (storage : Storage) : option Language :=
  match health storage with
  | Unavailable => None
  | _ =>
      if decide (items storage !! STORAGE_KEY = Some "he") then Some he
      else if decide (items storage !! STORAGE_KEY = Some "en") then Some en
      else None
  end.

End I18nMore.

(** ** The language switcher (LanguageSwitcher.tsx) *)

Module LanguageSwitcher.
Import I18n.

(** The state [currentLanguage] of the component (line 19): its own copy
    of the language, set at the first render and by the listener of
    lines 23-25. *)
Definition state : Type := Language.

Definition first_render : M state := getLanguage.

(** Lines 23-25: the listener stores the language it is called with. *)
Definition listener_body (language : Language) (st : state) : state :=
  language.

(** The state after the calls the listener received, in turn. *)
Definition after_calls (st : state) (calls : list Language) : state :=
  foldl (fun st' language => listener_body language st') st calls.

(** Lines 30-33. *)
Definition handleToggle (currentLanguage : state) : M unit :=
  let newLanguage := if decide (currentLanguage = he) then en else he in
  setLanguage newLanguage.

(** Line 39. *)
Definition aria_label (currentLanguage : state) : string :=
  "Switch to " ++ (if decide (currentLanguage = he) then "English"
                   else "Hebrew").

End LanguageSwitcher.

(** ** The life of a lazy image (useLazyLoad and LazyImage.tsx) *)

Module LazyImageMachine.
Import LazyLoad.

Inductive event : Type :=
  | Intersection (entries : list bool)  (* the observer calls back *)
  | Rerender (src : string)             (* a render, with the prop [src] *)
  | ImgLoad                             (* [onLoad] of the image element *)
  | ImgError                            (* [onError] of the image element *)
  | Unmount.                            (* the clean-up of the effect *)

(** The observer only calls back while it exists; the image element only
    fires while it is in the document. *)
Definition can_fire (ev : event) (c : component) : bool :=
  match ev with
  | Intersection _ => bool_decide (is_Some (observer (the_hook c)))
  | ImgLoad | ImgError => renders_img (the_image c)
  | Rerender _ | Unmount => true
  end.

Definition step (ev : event) (c : component) : component :=
  match ev with
  | Intersection entries =>
      mkComponent (observer_callback entries (the_hook c)) (the_image c)
  | Rerender src => rerender src c
  | ImgLoad => mkComponent (the_hook c) (handleLoad (the_image c))
  | ImgError => mkComponent (the_hook c) (handleError (the_image c))
  | Unmount => mkComponent (useLazyLoad_cleanup (the_hook c)) (the_image c)
  end.

Fixpoint run (evs : list event) (c : component) : option component :=
  match evs with
  | [] => Some c
  | ev :: evs' => if can_fire ev c then run evs' (step ev c) else None
  end.

Definition intersects (ev : event) : bool :=
  match ev with
  | Intersection entries => existsb (fun entry => entry) entries
  | _ => false
  end.

End LazyImageMachine.

(** ** The application shell (App.tsx): swipes between the pages *)

Module App.
Local Open Scope Z_scope.

Definition navigationPaths : list string :=
  ["/"; "/articles"; "/exhibitions"; "/student-artwork"; "/links"].

Definition minSwipeDistance : Z := 50.

(** The two pieces of state [touchStart] and [touchEnd]; the coordinates
    are whole numbers of pixels. *)
Record touch : Type := mkTouch {
  touchStart : option Z;
  touchEnd : option Z
}.

Definition initial_touch : touch := mkTouch None None.

Definition onTouchStart (clientX : Z) (t : touch) : touch :=
  mkTouch (Some clientX) None.

Definition onTouchMove (clientX : Z) (t : touch) : touch :=
  mkTouch (touchStart t) (Some clientX).

(** [!x] for a number or [null]: true of [null] and of zero. *)
Definition falsy (x : option Z) : bool :=
  match x with
  | None => true
  | Some n => bool_decide (n = 0)
  end.

(** [navigationPaths.indexOf(pathname)]: the first position, or -1. *)
Fixpoint indexOf (paths : list string) (pathname : string) : Z :=
  match paths with
  | [] => -1
  | p :: paths' =>
      if decide (p = pathname) then 0
      else let i := indexOf paths' pathname in
           if bool_decide (i = -1) then -1 else i + 1
  end.

Definition path_at (index : Z) : option string :=
  if bool_decide (0 <= index) then navigationPaths !! Z.to_nat index
  else None.

(** [onTouchEnd]: the arguments of the calls of [navigate], in order
    ([None] stands for [navigate(undefined)]). *)
Definition onTouchEnd (t : touch) (pathname : string) : list (option string) :=
  if falsy (touchStart t) || falsy (touchEnd t) then []
  else
    match touchStart t, touchEnd t with
    | Some start, Some finish =>
        let distance := start - finish in
        let isLeftSwipe := bool_decide (distance > minSwipeDistance) in
        let isRightSwipe := bool_decide (distance < - minSwipeDistance) in
        let currentIndex := indexOf navigationPaths pathname in
        (if isLeftSwipe
            && bool_decide (currentIndex
                            < Z.of_nat (List.length navigationPaths) - 1)
         then [path_at (currentIndex + 1)] else [])
        ++
        (if isRightSwipe && bool_decide (currentIndex > 0)
         then [path_at (currentIndex - 1)] else [])
    | _, _ => []
    end.

(** A whole gesture: a touch at [start], moves, the last one at [finish]. *)
Definition swipe (t : touch) (start : Z) (moves : list Z) (finish : Z)
    : touch :=
  onTouchMove finish
    (foldl (fun t' x => onTouchMove x t') (onTouchStart start t) moves).

End App.

(** ** The page transitions (AboutPage.tsx, ExhibitionsPage.tsx) *)

Module Page.

(** The [x] of the variant [initial] (lines 13-19). *)
Definition initial_x (isRTL : bool) (direction : string) : string :=
  if decide (direction = "forward")
  then (if isRTL then "-100%" else "100%")
  else (if isRTL then "100%" else "-100%").

(** The [x] of the variant [exit] (lines 24-30). *)
Definition exit_x (isRTL : bool) (direction : string) : string :=
  if decide (direction = "forward")
  then (if isRTL then "100%" else "-100%")
  else (if isRTL then "-100%" else "100%").

(** Line 10: [i18nService.getDirection() === 'rtl']. *)
Definition isRTL (d : I18n.TextDirection) : bool :=
  match d with I18n.rtl => true | I18n.ltr => false end.

(** Lines 9-10, the part of a render that asks the service. *)
Definition render_isRTL : I18n.M bool :=
  d ← I18n.getDirection;
  mret (isRTL d).

End Page.

(** ** Properties of [translate] *)

Module TranslateTheory.
Import JS I18n.

Lemma can_descend_own props k d :
  props !! k = Some d -> can_descend k (VData (TObj props)) = true.
Proof.
  intros Hk. unfold can_descend; simpl.
  rewrite Hk. by rewrite bool_decide_eq_true_2.
Qed.

Lemma can_descend_string k s : can_descend k (VData (TStr s)) = false.
Proof. unfold can_descend; simpl. by rewrite andb_false_r. Qed.

Lemma get_property_own props k d :
  props !! k = Some d -> get_property k (VData (TObj props)) = VData d.
Proof. intros Hk. unfold get_property. by rewrite Hk. Qed.

Lemma get_property_inherited props k :
  props !! k = None -> foreign (get_property k (VData (TObj props))).
Proof. intros Hk. unfold get_property. rewrite Hk. by case_decide. Qed.

Lemma can_descend_ordinary props k :
  inherited k = false ->
  can_descend k (VData (TObj props)) = bool_decide (is_Some (props !! k)).
Proof.
  intros Hk. unfold can_descend; simpl. rewrite Hk.
  by rewrite orb_false_r.
Qed.

(** A path that exists through own properties is the one the loop takes. *)
Lemma fallback_walk_resolve d keys d' :
  resolve d keys = Some d' ->
  fallback_walk (VData d) keys = Some (VData d').
Proof.
  revert d. induction keys as [|k keys IH]; intros d;
    cbn [fallback_walk resolve].
  - by intros [= ->].
  - destruct d as [s|props]; [done|].
    destruct (props !! k) as [d1|] eqn:Hk; [|done].
    rewrite (can_descend_own _ _ _ Hk), (get_property_own _ _ _ Hk).
    apply IH.
Qed.

(** Once outside the translation data, the loop never comes back to a
    string. *)
Lemma fallback_walk_foreign v keys v' :
  foreign v -> fallback_walk v keys = Some v' -> foreign v'.
Proof.
  revert v. induction keys as [|k keys IH]; intros v Hv;
    cbn [fallback_walk].
  - by intros [= <-].
  - destruct (can_descend k v) eqn:Hd; [|done].
    apply IH.
    destruct v as [d| | |]; simpl in *; try done.
    by case_decide.
Qed.

Lemma foreign_not_string v : foreign v -> typeof_string v = None.
Proof. by destruct v. Qed.

(** A path that does not exist through own properties never ends on a
    string. *)
Lemma fallback_walk_missing d keys v :
  resolve d keys = None ->
  fallback_walk (VData d) keys = Some v -> typeof_string v = None.
Proof.
  revert d. induction keys as [|k keys IH]; intros d;
    cbn [fallback_walk resolve]; [done|].
  destruct (can_descend k (VData d)) eqn:Hd; [|done].
  destruct d as [s|props]; [by rewrite can_descend_string in Hd|].
  destruct (props !! k) as [d1|] eqn:Hk.
  - rewrite (get_property_own _ _ _ Hk). apply IH.
  - intros _ Hw. apply foreign_not_string.
    eapply fallback_walk_foreign; [|exact Hw].
    by apply get_property_inherited.
Qed.

(** With segments that name no inherited member, the loop is the lookup
    through own properties. *)
Lemma fallback_walk_ordinary d keys :
  Forall (fun k => inherited k = false) keys ->
  fallback_walk (VData d) keys = VData <$> resolve d keys.
Proof.
  revert d. induction keys as [|k keys IH]; intros d Hks;
    cbn [fallback_walk resolve]; [done|].
  apply Forall_cons in Hks as [Hk Hks].
  destruct d as [s|props]; [by rewrite can_descend_string|].
  rewrite (can_descend_ordinary _ _ Hk).
  destruct (props !! k) as [d1|] eqn:Hd.
  - rewrite bool_decide_eq_true_2 by (by eexists).
    rewrite (get_property_own _ _ _ Hd). by apply IH.
  - by rewrite bool_decide_eq_false_2 by (by intros [? ?]).
Qed.

(** The outer loop is the inner loop on the active dictionary, followed on
    failure by the inner loop on the English one. *)
Lemma walk_fallback english keys v ks :
  walk english keys v ks =
  match fallback_walk v ks with
  | Some v' => Some v'
  | None => fallback_walk english keys
  end.
Proof.
  revert v. induction ks as [|k ks IH]; intros v; simpl; [done|].
  destruct (can_descend k v); [apply IH | done].
Qed.

Lemma translate_unfold svc key :
  translate svc key None =
  match walk (VData (english_dictionary svc)) (split "." key)
             (VData (active_dictionary svc)) (split "." key) with
  | None => Some key
  | Some v => Some (default key (typeof_string v))
  end.
Proof.
  unfold translate, english_dictionary, active_dictionary.
  destruct (walk _ _ _ _) as [v|]; [|done].
  by destruct (typeof_string v).
Qed.

(** The fallback to English, for keys whose segments name no member of
    [Object.prototype]. *)
Lemma translate_fallback_ordinary svc key s :
  Forall (fun k => inherited k = false) (split "." key) ->
  resolve (active_dictionary svc) (split "." key) = None ->
  resolve (english_dictionary svc) (split "." key) = Some (TStr s) ->
  translate svc key None = Some s.
Proof.
  intros Hord Hact Heng.
  rewrite translate_unfold, walk_fallback.
  rewrite (fallback_walk_ordinary _ _ Hord), Hact. simpl.
  by rewrite (fallback_walk_resolve _ _ _ Heng).
Qed.

(** A key found in the active dictionary is answered from it. *)
Lemma translate_active svc key s :
  resolve (active_dictionary svc) (split "." key) = Some (TStr s) ->
  translate svc key None = Some s.
Proof.
  intros Hact. rewrite translate_unfold, walk_fallback.
  by rewrite (fallback_walk_resolve _ _ _ Hact).
Qed.

(** C1, at a failing input: the English dictionary has the entry
    [constructor], the (active) Hebrew dictionary is empty, so the key is
    missing from it; yet [translate] answers the raw key and not the English
    text, because the test [k in value] of line 97 succeeds on the inherited
    member and the fallback never starts. *)
Theorem translate_inherited_key_hides_english :
  let svc := Examples.builder_service in
  currentLanguage svc = he /\
  resolve (english_dictionary svc) (split "." "constructor")
    = Some (TStr "Builder") /\
  resolve (active_dictionary svc) (split "." "constructor") = None /\
  translate svc "constructor" None = Some "constructor".
Proof. by vm_compute. Qed.

(** C2, as stated, fails: the empty key is absent from both dictionaries and
    comes back verbatim, which is an empty result; so does a key whose entry
    is the empty string. *)
Lemma translate_empty_result :
  string_leaf (resolved (Examples.empty_service he) "") = None /\
  translate (Examples.empty_service he) "" None = Some "" /\
  translate Examples.blank_service "title" None = Some "".
Proof. by vm_compute. Qed.

(** C2, amended: a key that resolves to no string (absent from both
    dictionaries, or leading to something that is not a string) comes back
    verbatim; a call without parameters always returns a string, and that
    string is empty only when the key is empty or the entry it resolves to
    is the empty string. *)
Theorem translate_miss_returns_key svc key :
  (string_leaf (resolved svc key) = None ->
   translate svc key None = Some key) /\
  (exists r, translate svc key None = Some r /\
     (r = "" -> key = "" \/ string_leaf (resolved svc key) = Some "")).
Proof.
  assert (Hkey : forall o : option string,
            exists r, Some key = Some r /\ (r = "" -> key = "" \/ o = Some "")).
  { intros o. exists key. split; [done|]. by left. }
  assert (Hstr : forall s,
            exists r, Some s = Some r /\ (r = "" -> key = "" \/ Some s = Some "")).
  { intros s. exists s. split; [done|]. intros ->. by right. }
  rewrite translate_unfold, walk_fallback. unfold resolved.
  destruct (resolve (active_dictionary svc) (split "." key)) as [d|] eqn:Hact.
  - rewrite (fallback_walk_resolve _ _ _ Hact).
    destruct d as [s|props]; simpl; split; auto; done.
  - destruct (fallback_walk (VData (active_dictionary svc)) (split "." key))
      as [v|] eqn:Hw.
    + rewrite (fallback_walk_missing _ _ _ Hact Hw). simpl. split; auto.
    + destruct (resolve (english_dictionary svc) (split "." key))
        as [d|] eqn:Heng.
      * rewrite (fallback_walk_resolve _ _ _ Heng).
        destruct d as [s|props]; simpl; split; auto; done.
      * destruct (fallback_walk (VData (english_dictionary svc)) _)
          as [v|] eqn:Hw'; [|split; auto].
        rewrite (fallback_walk_missing _ _ _ Heng Hw'). simpl. split; auto.
Qed.

Lemma translate_miss_returns_key_witness :
  string_leaf (resolved (Examples.test_service he) "nonexistent.key") = None /\
  translate (Examples.test_service he) "nonexistent.key" None
    = Some "nonexistent.key".
Proof.
  split; [by vm_compute|].
  apply (proj1 (translate_miss_returns_key _ _)). by vm_compute.
Defined.

(** Which parameter names give a literal pattern. *)
Example plain_name_examples :
  plain_name "name" = true /\ plain_name "user_name" = true /\
  plain_name "" = true /\ plain_name "x1" = true /\
  plain_name "a.b" = false /\ plain_name "(" = false /\
  plain_name "0" = false /\ plain_name "1,2" = false.
Proof. by vm_compute. Qed.

(** I18nService.test.ts, lines 81-111. *)
Example translate_unit_tests :
  translate (Examples.test_service en) "navigation.about" None = Some "About" /\
  translate (Examples.test_service en) "navigation.articles" None
    = Some "Articles" /\
  translate (Examples.test_service he) "navigation.about" None
    = Some "אודות" /\
  translate (Examples.test_service he) "navigation.articles" None
    = Some "Articles" /\
  translate (Examples.test_service en) "nonexistent.key" None
    = Some "nonexistent.key".
Proof. by vm_compute. Qed.

(** *** Parameters *)

(** C3, at a failing input: with the dictionary of the unit tests, the
    parameter value made of a dollar and an ampersand is not what replaces
    the placeholder of its name: [replace] reads the value as a replacement
    pattern and puts the matched text, the placeholder itself, back.  A value
    with two dollars loses one of them.  The value of the unit test is
    substituted as expected. *)
Theorem translate_dollar_value_not_substituted :
  let svc := Examples.test_service en in
  translate svc "greeting" None = Some "Hello {{name}}" /\
  translate svc "greeting" (Some [("name", "Ofra")]) = Some "Hello Ofra" /\
  translate svc "greeting" (Some [("name", "$&")]) = Some "Hello {{name}}" /\
  translate svc "greeting" (Some [("name", "US$$")]) = Some "Hello US$".
Proof. by vm_compute. Qed.

End TranslateTheory.

(** ** Interpolation of well-formed templates *)

Module InterpolationTheory.
Import JS I18n.

Lemma append_String c s t : String c s ++ t = String c (s ++ t).
Proof. reflexivity. Qed.

Lemma append_nil_l s : "" ++ s = s.
Proof. reflexivity. Qed.

Lemma append_nil_r s : s ++ "" = s.
Proof. induction s as [|c s IH]; [done|]. by rewrite append_String, IH. Qed.

Lemma append_assoc s t u : (s ++ t) ++ u = s ++ (t ++ u).
Proof.
  induction s as [|c s IH]; [done|]. by rewrite !append_String, IH.
Qed.

Lemma has_char_app c s t : has_char c (s ++ t) = has_char c s || has_char c t.
Proof.
  induction s as [|d s IH]; [done|].
  rewrite append_String. cbn [has_char]. by rewrite IH, orb_assoc.
Qed.

Lemma has_char_String c d s :
  has_char c (String d s) = false -> d <> c /\ has_char c s = false.
Proof.
  cbn [has_char]. intros [Hd Hs]%orb_false_elim.
  by apply bool_decide_eq_false in Hd.
Qed.

(** A value without dollar sign is inserted as it is. *)
Lemma get_substitution_plain matched before after template :
  has_char "$" template = false ->
  get_substitution matched before after template = template.
Proof.
  induction template as [|c rest IH]; [done|].
  intros [Hc Hrest]%has_char_String. cbn [get_substitution].
  rewrite decide_False by done. by rewrite IH.
Qed.

Lemma prefix_app p rest : String.prefix p (p ++ rest) = true.
Proof.
  induction p as [|c p IH]; [by destruct rest|].
  rewrite append_String. cbn [String.prefix].
  by destruct (ascii_dec c c).
Qed.

Lemma prefix_String c p d s :
  String.prefix (String c p) (String d s)
  = bool_decide (c = d) && String.prefix p s.
Proof.
  cbn [String.prefix]. destruct (ascii_dec c d) as [->|Hne].
  - by rewrite bool_decide_eq_true_2.
  - by rewrite bool_decide_eq_false_2.
Qed.

Lemma placeholder_String name :
  placeholder name = String "{" (String "{" (name ++ "}}")).
Proof. reflexivity. Qed.

Lemma length_placeholder name :
  String.length (placeholder name) = S (S (String.length (name ++ "}}"))).
Proof. reflexivity. Qed.

(** A placeholder does not start at a character that is no opening brace. *)
Lemma prefix_placeholder_other name c rest :
  c <> "{"%char -> String.prefix (placeholder name) (String c rest) = false.
Proof.
  intros Hc. rewrite placeholder_String, prefix_String.
  by rewrite bool_decide_eq_false_2.
Qed.

(** One step of the scan where nothing matches. *)
Lemma replace_scan_here pat template before c rest :
  String.prefix pat (String c rest) = false ->
  replace_scan pat template 0 before (String c rest)
  = String c (replace_scan pat template 0 (before ++ String c "") rest).
Proof. intros Hp. cbn [replace_scan]. by rewrite Hp. Qed.

Section replace.
Context (name template : string).
Let pat := placeholder name.

(** Text without opening brace is copied. *)
Lemma replace_scan_text t before rest :
  has_char "{" t = false ->
  replace_scan pat template 0 before (t ++ rest)
  = t ++ replace_scan pat template 0 (before ++ t) rest.
Proof.
  revert before. induction t as [|c t IH]; intros before Ht.
  - by rewrite append_nil_r.
  - apply has_char_String in Ht as [Hc Ht].
    rewrite !append_String. cbn [replace_scan].
    unfold pat at 1. rewrite prefix_placeholder_other by done.
    rewrite IH by done. by rewrite append_assoc.
Qed.

(** The characters of a match are passed over. *)
Lemma replace_scan_skip s before rest :
  replace_scan pat template (String.length s) before (s ++ rest)
  = replace_scan pat template 0 (before ++ s) rest.
Proof.
  revert before. induction s as [|c s IH]; intros before.
  - rewrite append_nil_r. by destruct rest.
  - rewrite append_String. cbn [replace_scan String.length].
    rewrite IH. by rewrite append_assoc.
Qed.

Lemma drop_chars_app s rest : drop_chars (String.length s) (s ++ rest) = rest.
Proof.
  induction s as [|c s IH]; [by destruct rest|].
  by rewrite append_String.
Qed.

(** At a placeholder of the parameter the value is inserted. *)
Lemma replace_scan_match before rest :
  has_char "$" template = false ->
  replace_scan pat template 0 before (pat ++ rest)
  = template ++ replace_scan pat template 0 (before ++ pat) rest.
Proof.
  intros Hplain.
  assert (Hpat : pat = String "{" (String "{" (name ++ "}}"))) by done.
  rewrite Hpat at 2. rewrite append_String. cbn [replace_scan].
  rewrite <- append_String, <- Hpat.
  rewrite prefix_app, drop_chars_app, get_substitution_plain by done.
  f_equal. rewrite Hpat at 2 4. rewrite append_String.
  change (String.length (String "{" (String "{" (name ++ "}}"))) - 1)%nat
    with (String.length (String "{" (name ++ "}}"))).
  change (String "{" ((name ++ "}}") ++ rest))
    with (String "{" (name ++ "}}") ++ rest).
  rewrite (replace_scan_skip (String "{" (name ++ "}}"))).
  by rewrite append_assoc.
Qed.

End replace.

(** Two placeholders that start at the same place have the same name. *)
Lemma prefix_closing_inj n m rest :
  has_char "}" n = false -> has_char "}" m = false ->
  String.prefix (n ++ "}}") (m ++ "}}" ++ rest) = true -> n = m.
Proof.
  revert m. induction n as [|a n IH]; intros [|c m] Hn Hm.
  - done.
  - apply has_char_String in Hm as [Hc _].
    rewrite append_nil_l, !append_String, prefix_String.
    by rewrite bool_decide_eq_false_2.
  - apply has_char_String in Hn as [Ha _].
    rewrite append_nil_l, !append_String, prefix_String.
    by rewrite bool_decide_eq_false_2.
  - apply has_char_String in Hn as [_ Hn].
    apply has_char_String in Hm as [_ Hm].
    rewrite !append_String, prefix_String.
    intros [->%bool_decide_eq_true Hp]%andb_true_iff.
    f_equal. by eapply IH.
Qed.

Lemma prefix_placeholder_inj n m rest :
  has_char "}" n = false -> has_char "}" m = false ->
  String.prefix (placeholder n) (placeholder m ++ rest) = true -> n = m.
Proof.
  intros Hn Hm. rewrite !placeholder_String, !append_String, !prefix_String.
  rewrite !bool_decide_eq_true_2 by done. cbn [andb].
  rewrite append_assoc. by apply prefix_closing_inj.
Qed.

(** A placeholder of another name is copied. *)
Lemma replace_scan_other name template m before rest :
  has_char "}" name = false ->
  has_char "{" m = false -> has_char "}" m = false ->
  name <> m ->
  replace_scan (placeholder name) template 0 before (placeholder m ++ rest)
  = placeholder m
    ++ replace_scan (placeholder name) template 0
         (before ++ placeholder m) rest.
Proof.
  intros Hn Hm1 Hm2 Hne.
  assert (Hfirst : String.prefix (placeholder name) (placeholder m ++ rest)
                   = false).
  { destruct (String.prefix _ _) eqn:Hp; [|done].
    by apply prefix_placeholder_inj in Hp. }
  assert (Hsecond : String.prefix (placeholder name)
                      (String "{" ((m ++ "}}") ++ rest)) = false).
  { rewrite placeholder_String, prefix_String.
    rewrite bool_decide_eq_true_2 by done. cbn [andb].
    destruct m as [|c m].
    - rewrite append_nil_l, !append_String, prefix_String.
      by rewrite bool_decide_eq_false_2.
    - apply has_char_String in Hm1 as [Hc _].
      rewrite !append_String, prefix_String.
      rewrite bool_decide_eq_false_2; [done|]. by intros <-. }
  assert (Hsubject : forall u, placeholder m ++ u
                     = String "{" (String "{" ((m ++ "}}") ++ u))) by done.
  rewrite Hsubject in Hfirst. rewrite !Hsubject.
  rewrite (replace_scan_here _ _ _ _ _ Hfirst).
  rewrite (replace_scan_here _ _ _ _ _ Hsecond).
  rewrite replace_scan_text by (by rewrite has_char_app, Hm1).
  do 4 f_equal. by rewrite !append_assoc.
Qed.

(** *** Templates *)

Lemma plain_name_no_syntax name c :
  plain_name name = true -> c ∈ syntax_characters -> has_char c name = false.
Proof.
  unfold plain_name. intros [Hall _]%andb_true_iff Hc.
  induction name as [|d name IH]; [done|].
  cbn [list_ascii_of_string forallb] in Hall.
  apply andb_true_iff in Hall as [Hd Hall].
  cbn [has_char]. rewrite IH by done.
  apply negb_true_iff, bool_decide_eq_false in Hd.
  rewrite bool_decide_eq_false_2; [done|]. by intros ->.
Qed.

Lemma plain_name_no_closing name :
  plain_name name = true -> has_char "}" name = false.
Proof.
  intros Hplain. apply (plain_name_no_syntax _ _ Hplain).
  apply (bool_decide_eq_true_1 _). by vm_compute.
Qed.

Lemma fill_single_hole name template m :
  fill [(name, template)] (Hole m)
  = if decide (name = m) then Text template else Hole m.
Proof. cbn [fill param_value]. by case_decide. Qed.

(** One [replace] on a well-formed template fills the placeholders of the
    parameter and copies the rest. *)
Lemma replace_scan_render name template segs before :
  has_char "}" name = false ->
  has_char "$" template = false ->
  forallb well_formed_segment segs = true ->
  replace_scan (placeholder name) template 0 before (render segs)
  = render (map (fill [(name, template)]) segs).
Proof.
  intros Hname Htemplate. revert before.
  induction segs as [|seg segs IH]; intros before Hwf; [done|].
  cbn [forallb] in Hwf. apply andb_true_iff in Hwf as [Hseg Hwf].
  cbn [map render]. destruct seg as [t|m].
  - cbn [well_formed_segment] in Hseg. apply negb_true_iff in Hseg.
    cbn [render_segment fill]. rewrite replace_scan_text by done.
    by rewrite IH.
  - cbn [well_formed_segment] in Hseg.
    apply andb_true_iff in Hseg as [Hm1%negb_true_iff Hm2%negb_true_iff].
    rewrite fill_single_hole. cbn [render_segment].
    destruct (decide (name = m)) as [<-|Hne].
    + rewrite replace_scan_match by done. cbn [render_segment].
      by rewrite IH.
    + rewrite replace_scan_other by done. cbn [render_segment].
      by rewrite IH.
Qed.

Lemma fill_single_well_formed name template segs :
  has_char "{" template = false ->
  forallb well_formed_segment segs = true ->
  forallb well_formed_segment (map (fill [(name, template)]) segs) = true.
Proof.
  intros Htemplate. induction segs as [|seg segs IH]; [done|].
  cbn [map forallb]. intros [Hseg Hwf]%andb_true_iff.
  rewrite IH by done. rewrite andb_true_r.
  destruct seg as [t|m]; [done|]. rewrite fill_single_hole.
  case_decide; [|done]. cbn [well_formed_segment]. by rewrite Htemplate.
Qed.

Lemma fill_fill name template entries seg :
  fill entries (fill [(name, template)] seg)
  = fill ((name, template) :: entries) seg.
Proof.
  destruct seg as [t|m]; [done|]. rewrite fill_single_hole.
  cbn [fill param_value]. by case_decide.
Qed.

Lemma fill_nil segs : map (fill []) segs = segs.
Proof.
  induction segs as [|[t|m] segs IH]; [done|..]; cbn [map fill param_value];
    by rewrite IH.
Qed.

(** For ordinary parameters and a well-formed template, the reduction of
    lines 121-125 is the substitution of the specification: every
    placeholder that names a parameter is replaced by the value of that
    parameter, and every other placeholder is left as it is. *)
Theorem interpolate_well_formed entries segs :
  forallb ordinary_entry entries = true ->
  forallb well_formed_segment segs = true ->
  interpolate entries (render segs) = Some (render (map (fill entries) segs)).
Proof.
  revert segs. induction entries as [|[name template] entries IH];
    intros segs Hentries Hsegs.
  - by rewrite fill_nil.
  - cbn [forallb] in Hentries.
    apply andb_true_iff in Hentries as [Hentry Hentries].
    unfold ordinary_entry in Hentry. cbn [fst snd] in Hentry.
    apply andb_true_iff in Hentry as [Hentry Hbrace%negb_true_iff].
    apply andb_true_iff in Hentry as [Hplain Hdollar%negb_true_iff].
    cbn [interpolate]. unfold placeholder_regexp. rewrite Hplain.
    cbn [mbind option_bind]. unfold replace_all.
    rewrite replace_scan_render
      by auto using plain_name_no_closing.
    rewrite IH by auto using fill_single_well_formed.
    rewrite map_map. do 2 f_equal.
    apply map_ext. intros seg. apply fill_fill.
Qed.

Lemma translate_params_active svc key s entries :
  resolve (active_dictionary svc) (split "." key) = Some (TStr s) ->
  translate svc key (Some entries) = interpolate entries s.
Proof.
  intros Hact. unfold translate.
  fold (english_dictionary svc). fold (active_dictionary svc).
  rewrite TranslateTheory.walk_fallback.
  by rewrite (TranslateTheory.fallback_walk_resolve _ _ _ Hact).
Qed.

(** The same for [translate], when the active dictionary holds the
    template. *)
Theorem translate_well_formed_template svc key entries segs :
  resolve (active_dictionary svc) (split "." key) = Some (TStr (render segs)) ->
  forallb ordinary_entry entries = true ->
  forallb well_formed_segment segs = true ->
  translate svc key (Some entries) = Some (render (map (fill entries) segs)).
Proof.
  intros Hact Hentries Hsegs.
  rewrite (translate_params_active _ _ _ _ Hact).
  by apply interpolate_well_formed.
Qed.

(** I18nService.test.ts, line 113. *)
Example translate_greeting_test :
  translate (Examples.test_service en) "greeting" (Some [("name", "Ofra")])
  = Some "Hello Ofra".
Proof.
  change (Some "Hello Ofra")
    with (Some (render (map (fill [("name", "Ofra")])
                          [Text "Hello "; Hole "name"]))).
  apply translate_well_formed_template; by vm_compute.
Qed.

End InterpolationTheory.

(** ** Properties of the service: language changes and listeners *)

Module ServiceTheory.
Import JS I18n.
Local Open Scope list_scope.

Lemma forEach_notify ls w :
  forEach ls (fun l => svc' ← this; emit (Called l (currentLanguage svc'))) w
  = (Return tt,
     mkWorld (service w) (localStorage w)
             (trace w ++ notifications (currentLanguage (service w)) ls)).
Proof.
  revert w. induction ls as [|l ls IH]; intros w.
  - simpl. unfold mret, M_ret. rewrite app_nil_r. by destruct w.
  - cbn [forEach]. unfold mbind, M_bind at 1.
    unfold mbind, M_bind at 1. unfold this at 1, emit.
    rewrite IH. cbn [service localStorage trace notifications map].
    by rewrite <- app_assoc.
Qed.

(** What a call of [setLanguage] does, in one equation. *)
Lemma setLanguage_run language w :
  setLanguage language w
  = (Return tt,
     mkWorld (mkService language (translations (service w))
                        (listeners (service w)))
             (storage_after_save language (localStorage w))
             (trace w ++ save_events (localStorage w)
                      ++ notifications language (listeners (service w)))).
Proof.
  unfold setLanguage, notifyListeners, saveLanguageToStorage.
  unfold mbind, M_bind, this, assign, try_catch, localStorage_setItem,
    console_warn, emit, storage_after_save, save_events.
  cbn [service localStorage trace].
  destruct (health (localStorage w)) eqn:Hh;
    rewrite forEach_notify; cbn [service localStorage trace currentLanguage];
    by rewrite <- ?app_assoc.
Qed.

Lemma emitted_app {A} (m : M A) w (evs : list event) :
  trace (m w).2 = trace w ++ evs -> emitted m w = evs.
Proof. unfold emitted. intros ->. by rewrite drop_app_length. Qed.

Lemma setLanguage_emitted language w :
  emitted (setLanguage language) w
  = save_events (localStorage w)
    ++ notifications language (listeners (service w)).
Proof. apply emitted_app. by rewrite setLanguage_run. Qed.

Lemma calls_of_app l (evs1 evs2 : list event) :
  calls_of l (evs1 ++ evs2) = calls_of l evs1 ++ calls_of l evs2.
Proof. unfold calls_of. apply omap_app. Qed.

Lemma calls_of_save_events l st : calls_of l (save_events st) = [].
Proof. unfold save_events. by destruct (health st). Qed.

Lemma calls_of_notifications_absent l language ls :
  l ∉ ls -> calls_of l (notifications language ls) = [].
Proof.
  induction ls as [|l' ls IH]; [done|].
  intros Hl. apply not_elem_of_cons in Hl as [Hne Hl].
  cbn. rewrite decide_False by done. by apply IH.
Qed.

Lemma calls_of_notifications_present l language ls :
  NoDup ls -> l ∈ ls -> calls_of l (notifications language ls) = [language].
Proof.
  induction 1 as [|l' ls Hl' Hnd IH]; [by intros ?%elem_of_nil|].
  intros Hl. cbn. destruct (decide (l' = l)) as [->|Hne].
  - f_equal. by apply calls_of_notifications_absent.
  - apply elem_of_cons in Hl as [->|Hl]; [done|]. by apply IH.
Qed.

(** *** The set of listeners *)

Lemma elem_of_set_add l l' ls : l' ∈ set_add l ls <-> l' = l \/ l' ∈ ls.
Proof.
  unfold set_add. case_decide.
  - split; [tauto | by intros [->|?]].
  - rewrite elem_of_app, list_elem_of_singleton. tauto.
Qed.

Lemma elem_of_set_delete l l' ls : l' ∈ set_delete l ls <-> l' <> l /\ l' ∈ ls.
Proof. unfold set_delete. apply (list_elem_of_filter (fun x => x <> l)). Qed.

Lemma set_add_NoDup l ls : NoDup ls -> NoDup (set_add l ls).
Proof.
  intros Hnd. unfold set_add. case_decide; [done|].
  apply NoDup_app. split_and!; [done| |apply NoDup_singleton].
  intros x Hx ->%list_elem_of_singleton. done.
Qed.

Lemma set_delete_NoDup l ls : NoDup ls -> NoDup (set_delete l ls).
Proof. apply NoDup_filter. Qed.

Lemma set_add_idem l ls : set_add l (set_add l ls) = set_add l ls.
Proof.
  unfold set_add at 1. rewrite decide_True; [done|].
  apply elem_of_set_add. by left.
Qed.

Lemma set_delete_absent l ls : l ∉ ls -> set_delete l ls = ls.
Proof.
  induction ls as [|l' ls IH]; [done|].
  intros [Hne Hl]%not_elem_of_cons. unfold set_delete in *.
  rewrite filter_cons, decide_True by done. f_equal. by apply IH.
Qed.

(** *** Each method in one equation *)

Lemma subscribe_run l w :
  subscribe l w
  = (Return (unsubscribe l),
     mkWorld (mkService (currentLanguage (service w))
                        (translations (service w))
                        (set_add l (listeners (service w))))
             (localStorage w) (trace w)).
Proof. done. Qed.

Lemma unsubscribe_run l w :
  unsubscribe l w
  = (Return (bool_decide (l ∈ listeners (service w))),
     mkWorld (mkService (currentLanguage (service w))
                        (translations (service w))
                        (set_delete l (listeners (service w))))
             (localStorage w) (trace w)).
Proof. done. Qed.

Lemma perform_returns o w : (perform o w).1 = Return tt.
Proof. destruct o; [simpl; by rewrite setLanguage_run|done..]. Qed.

Lemma perform_listeners o w :
  listeners (service (perform o w).2) = listeners_after o (listeners (service w)).
Proof. destruct o; [simpl; by rewrite setLanguage_run|done..]. Qed.

Lemma perform_trace o w :
  trace (perform o w).2 = trace w ++ emitted (perform o) w.
Proof.
  assert (Hgen : forall evs : list event,
            trace (perform o w).2 = trace w ++ evs ->
            trace (perform o w).2 = trace w ++ emitted (perform o) w).
  { intros evs Hevs. by rewrite (emitted_app _ _ _ Hevs). }
  destruct o as [language|l|l|language data].
  - eapply Hgen. simpl. by rewrite setLanguage_run.
  - apply (Hgen []). by rewrite app_nil_r.
  - apply (Hgen []). by rewrite app_nil_r.
  - apply (Hgen []). by rewrite app_nil_r.
Qed.

Lemma perform_emitted_calls o w l :
  calls_of l (emitted (perform o) w)
  = match o with
    | SetLanguage language =>
        calls_of l (notifications language (listeners (service w)))
    | _ => []
    end.
Proof.
  destruct o as [language|l'|l'|language data].
  - simpl. by rewrite setLanguage_emitted, calls_of_app, calls_of_save_events.
  - by rewrite (emitted_app _ _ []) by (by rewrite app_nil_r).
  - by rewrite (emitted_app _ _ []) by (by rewrite app_nil_r).
  - by rewrite (emitted_app _ _ []) by (by rewrite app_nil_r).
Qed.

Lemma perform_all_cons o os w :
  perform_all (o :: os) w = perform_all os (perform o w).2.
Proof.
  cbn [perform_all]. unfold mbind, M_bind at 1.
  pose proof (perform_returns o w) as Hret.
  destruct (perform o w) as [[[]|e] w']; simpl in *; done.
Qed.

Lemma perform_all_returns os w : (perform_all os w).1 = Return tt.
Proof.
  revert w. induction os as [|o os IH]; intros w; [done|].
  by rewrite perform_all_cons.
Qed.

Lemma perform_all_trace os w :
  trace (perform_all os w).2 = trace w ++ emitted (perform_all os) w.
Proof.
  revert w. induction os as [|o os IH]; intros w.
  - unfold emitted. simpl. by rewrite drop_all, app_nil_r.
  - symmetry. rewrite (emitted_app _ _ (emitted (perform o) w
                         ++ emitted (perform_all os) (perform o w).2)); [|].
    + by rewrite perform_all_cons, IH, perform_trace, app_assoc.
    + by rewrite perform_all_cons, IH, perform_trace, app_assoc.
Qed.

Lemma perform_all_emitted_cons o os w :
  emitted (perform_all (o :: os)) w
  = emitted (perform o) w ++ emitted (perform_all os) (perform o w).2.
Proof.
  apply emitted_app.
  by rewrite perform_all_cons, perform_all_trace, perform_trace, app_assoc.
Qed.

(** *** Invariants of the reachable worlds *)

Lemma boot_listeners defaultLanguage storage :
  listeners (service (boot defaultLanguage storage)) = [].
Proof.
  unfold boot, constructor, loadLanguageFromStorage, try_catch,
    localStorage_getItem, console_warn, emit, assign, mbind, M_bind,
    mret, M_ret.
  cbn [localStorage health service trace].
  destruct (health storage); cbn [snd service listeners];
    repeat case_decide; done.
Qed.

Lemma reachable_NoDup w : reachable w -> NoDup (listeners (service w)).
Proof.
  induction 1 as [d st|o w Hw IH|w st Hw IH]; [| |done].
  - rewrite boot_listeners. apply NoDup_nil_2.
  - rewrite perform_listeners.
    destruct o; simpl; auto using set_add_NoDup, set_delete_NoDup.
Qed.

Lemma reachable_perform_all os w :
  reachable w -> reachable (perform_all os w).2.
Proof.
  revert w. induction os as [|o os IH]; intros w Hw; [done|].
  rewrite perform_all_cons. by apply IH, reachable_perform.
Qed.

(** A registration stays until the listener is unsubscribed. *)
Lemma perform_all_keeps l os w :
  Unsubscribe l ∉ os ->
  l ∈ listeners (service w) ->
  l ∈ listeners (service (perform_all os w).2).
Proof.
  revert w. induction os as [|o os IH]; intros w Hos Hl; [done|].
  apply not_elem_of_cons in Hos as [Ho Hos].
  rewrite perform_all_cons. apply IH; [done|].
  rewrite perform_listeners.
  destruct o as [| |l'|]; simpl; try done.
  - apply elem_of_set_add. by right.
  - apply elem_of_set_delete. split; [congruence|done].
Qed.

(** A listener that is not registered is not called, and stays out until it
    is subscribed again. *)
Lemma perform_all_absent l os w :
  Subscribe l ∉ os ->
  l ∉ listeners (service w) ->
  calls_of l (emitted (perform_all os) w) = [] /\
  l ∉ listeners (service (perform_all os w).2).
Proof.
  revert w. induction os as [|o os IH]; intros w Hos Hl.
  - split; [|done]. unfold emitted. simpl. by rewrite drop_all.
  - apply not_elem_of_cons in Hos as [Ho Hos].
    rewrite perform_all_emitted_cons, calls_of_app, perform_all_cons.
    assert (l ∉ listeners (service (perform o w).2)) as Hl'.
    { rewrite perform_listeners.
      destruct o as [|l'| |]; simpl; try done.
      - rewrite elem_of_set_add. intros [->|?]; done.
      - rewrite elem_of_set_delete. tauto. }
    destruct (IH _ Hos Hl') as [-> ?]. split; [|done].
    rewrite app_nil_r, perform_emitted_calls.
    destruct o; try done. by apply calls_of_notifications_absent.
Qed.

Lemma world_eta w :
  mkWorld (mkService (currentLanguage (service w)) (translations (service w))
                     (listeners (service w)))
          (localStorage w) (trace w) = w.
Proof. by destruct w as [[] ? ?]. Qed.

(** *** The unit tests of the service *)

(** I18nService.test.ts, lines 22-59: the default language, switching, and
    the listener that is notified once and then unsubscribed. *)
Example language_switching_tests :
  let w0 := boot he Examples.healthy_storage in
  let w1 := (subscribe 0 w0).2 in
  let w2 := (setLanguage en w1).2 in
  let w3 := (unsubscribe 0 w2).2 in
  let w4 := (setLanguage he w3).2 in
  currentLanguage (service w0) = he /\
  currentLanguage (service w2) = en /\
  currentLanguage (service w4) = he /\
  calls_of 0 (trace w2) = [en] /\
  calls_of 0 (trace w4) = [en].
Proof. by vm_compute. Qed.

(** Lines 125-153: the choice is stored, read back by a new service, and a
    stored value that is no language is ignored. *)
Example persistence_tests :
  let w1 := (setLanguage en (boot he Examples.healthy_storage)).2 in
  items (localStorage w1) !! STORAGE_KEY = Some "en" /\
  currentLanguage (service (boot he (localStorage w1))) = en /\
  currentLanguage
    (service (boot he (mkStorage {[ STORAGE_KEY := "invalid" ]} Healthy))) = he /\
  currentLanguage (service (boot en (mkStorage ∅ Unavailable))) = en.
Proof. by vm_compute. Qed.

(** Lines 156-166, and the first property of the specification. *)
Lemma direction_of_language language w :
  (getDirection (setLanguage language w).2).1
  = Return (match language with he => rtl | en => ltr end).
Proof. rewrite setLanguage_run. by destruct language. Qed.

(** *** Notification of the subscribers *)

(** C4.  In a world reached from a new service, [subscribe cb] returns an
    unsubscribe function; whatever is called in between (short of that
    function), a following [setLanguage x] returns normally and has by then
    called [cb] exactly once, with [x].  Once the unsubscribe function has
    run, no later call invokes [cb] again (as long as [cb] is not subscribed
    anew), and running the unsubscribe function a second time changes
    nothing. *)
Theorem subscriber_notified_once_until_unsubscribed
    (w : world) (cb : listener) (between later : list op) (x y : Language) :
  reachable w ->
  Unsubscribe cb ∉ between ->
  Subscribe cb ∉ later ->
  let unsub := unsubscribe cb in
  let w1 := (subscribe cb w).2 in
  let w2 := (perform_all between w1).2 in
  let w3 := (unsub w2).2 in
  let w4 := (perform_all later w3).2 in
  (subscribe cb w).1 = Return unsub /\
  (setLanguage x w2).1 = Return tt /\
  calls_of cb (emitted (setLanguage x) w2) = [x] /\
  (unsub w2).1 = Return true /\
  calls_of cb (emitted (perform_all later) w3) = [] /\
  calls_of cb (emitted (setLanguage y) w4) = [] /\
  unsub w3 = (Return false, w3) /\
  unsub w4 = (Return false, w4).
Proof.
  intros Hw Hbetween Hlater unsub w1 w2 w3 w4.
  assert (Hw2 : reachable w2).
  { apply reachable_perform_all.
    apply (reachable_perform (Subscribe cb) w Hw). }
  assert (Hin2 : cb ∈ listeners (service w2)).
  { apply perform_all_keeps; [done|].
    unfold w1. rewrite subscribe_run. simpl.
    apply elem_of_set_add. by left. }
  assert (Hout3 : cb ∉ listeners (service w3)).
  { unfold w3, unsub. rewrite unsubscribe_run. simpl.
    rewrite elem_of_set_delete. tauto. }
  destruct (perform_all_absent cb later w3 Hlater Hout3) as [Hcalls Hout4].
  assert (Hidle : forall w', cb ∉ listeners (service w') ->
                    unsub w' = (Return false, w')).
  { intros w' Hout. unfold unsub. rewrite unsubscribe_run.
    rewrite bool_decide_eq_false_2 by done.
    rewrite set_delete_absent by done. by rewrite world_eta. }
  split_and!.
  - done.
  - by rewrite setLanguage_run.
  - rewrite setLanguage_emitted, calls_of_app, calls_of_save_events.
    apply calls_of_notifications_present; [by apply reachable_NoDup|done].
  - unfold unsub. rewrite unsubscribe_run. simpl.
    by rewrite bool_decide_eq_true_2.
  - done.
  - rewrite setLanguage_emitted, calls_of_app, calls_of_save_events.
    by apply calls_of_notifications_absent.
  - by apply Hidle.
  - by apply Hidle.
Qed.

Lemma subscriber_notified_once_until_unsubscribed_witness :
  reachable (boot he Examples.healthy_storage) /\
  (Unsubscribe 7 ∉ [Subscribe 3; SetLanguage he; Subscribe 7]) /\
  (Subscribe 7 ∉ [SetLanguage he; Unsubscribe 7]) /\
  calls_of 7
    (emitted (setLanguage en)
       (perform_all [Subscribe 3; SetLanguage he; Subscribe 7]
          (subscribe 7 (boot he Examples.healthy_storage)).2).2)
  = [en].
Proof.
  assert (H1 : reachable (boot he Examples.healthy_storage))
    by apply reachable_boot.
  assert (H2 : Unsubscribe 7 ∉ [Subscribe 3; SetLanguage he; Subscribe 7]).
  { intros H. by repeat (apply elem_of_cons in H as [?|H]; [done|]);
      apply elem_of_nil in H. }
  assert (H3 : Subscribe 7 ∉ [SetLanguage he; Unsubscribe 7]).
  { intros H. by repeat (apply elem_of_cons in H as [?|H]; [done|]);
      apply elem_of_nil in H. }
  split_and!; [done..|].
  exact (proj1 (proj2 (proj2
    (subscriber_notified_once_until_unsubscribed
       _ 7 _ _ en he H1 H2 H3)))).
Defined.

(** C5.  When the write to the storage throws, [setLanguage] still returns
    normally: the error ends in a warning of the console, the current
    language is the requested one, the storage is as it was, and every
    listener has been called with the new language. *)
Theorem setLanguage_survives_failed_write (w : world) (language : Language)
    (e : exn) :
  (localStorage_setItem STORAGE_KEY (language_code language) w).1 = Throw e ->
  let w' := (setLanguage language w).2 in
  (setLanguage language w).1 = Return tt /\
  currentLanguage (service w') = language /\
  listeners (service w') = listeners (service w) /\
  localStorage w' = localStorage w /\
  emitted (setLanguage language) w
  = Warned "Failed to save language to localStorage:" e
    :: notifications language (listeners (service w)) /\
  (forall l, l ∈ listeners (service w) ->
     Called l language ∈ emitted (setLanguage language) w).
Proof.
  intros Hthrow w'.
  assert (Hsave : storage_after_save language (localStorage w) = localStorage w
                  /\ save_events (localStorage w)
                     = [Warned "Failed to save language to localStorage:" e]).
  { unfold localStorage_setItem, storage_after_save, save_events in *.
    destruct (health (localStorage w)); simpl in Hthrow; [done| |];
      by injection Hthrow as <-. }
  destruct Hsave as [Hst Hev].
  assert (Hem : emitted (setLanguage language) w
          = Warned "Failed to save language to localStorage:" e
            :: notifications language (listeners (service w))).
  { by rewrite setLanguage_emitted, Hev. }
  unfold w'. rewrite setLanguage_run. simpl. split_and!; try done.
  intros l Hl. rewrite Hem. apply elem_of_cons. right.
  unfold notifications. apply list_elem_of_fmap. by exists l.
Qed.

Lemma setLanguage_survives_failed_write_witness :
  let w := perform_all [Subscribe 1; Subscribe 2]
             (boot he Examples.full_storage) in
  (localStorage_setItem STORAGE_KEY (language_code en) w.2).1
    = Throw QuotaExceededError /\
  (setLanguage en w.2).1 = Return tt /\
  currentLanguage (service (setLanguage en w.2).2) = en.
Proof.
  split; [done|].
  pose proof (setLanguage_survives_failed_write
                (perform_all [Subscribe 1; Subscribe 2]
                   (boot he Examples.full_storage)).2
                en QuotaExceededError eq_refl) as H.
  split; [exact (proj1 H) | exact (proj1 (proj2 H))].
Defined.

(** C10.  Subscribing the same function twice leaves the world as after the
    first call: there is one registration, a language change calls the
    function once, and the unsubscribe function (either call returns the
    same one) removes the registration altogether. *)
Theorem subscribe_same_listener_twice (w : world) (cb : listener)
    (x : Language) :
  reachable w ->
  let w1 := (subscribe cb w).2 in
  let w2 := (subscribe cb w1).2 in
  let w3 := (unsubscribe cb w2).2 in
  (subscribe cb w).1 = Return (unsubscribe cb) /\
  (subscribe cb w1).1 = Return (unsubscribe cb) /\
  w2 = w1 /\
  calls_of cb (emitted (setLanguage x) w2) = [x] /\
  (cb ∉ listeners (service w3)) /\
  calls_of cb (emitted (setLanguage x) w3) = [].
Proof.
  intros Hw w1 w2 w3.
  assert (Hw2 : w2 = w1).
  { unfold w2, w1. rewrite !subscribe_run. simpl. by rewrite set_add_idem. }
  assert (Hout : cb ∉ listeners (service w3)).
  { unfold w3. rewrite unsubscribe_run. simpl.
    rewrite elem_of_set_delete. tauto. }
  split_and!; try done.
  - rewrite Hw2, setLanguage_emitted, calls_of_app, calls_of_save_events.
    apply calls_of_notifications_present.
    + apply reachable_NoDup, (reachable_perform (Subscribe cb) w Hw).
    + unfold w1. rewrite subscribe_run. simpl.
      apply elem_of_set_add. by left.
  - rewrite setLanguage_emitted, calls_of_app, calls_of_save_events.
    by apply calls_of_notifications_absent.
Qed.

Lemma subscribe_same_listener_twice_witness :
  reachable (boot he Examples.healthy_storage) /\
  (subscribe 5 (subscribe 5 (boot he Examples.healthy_storage)).2).2
  = (subscribe 5 (boot he Examples.healthy_storage)).2.
Proof.
  split; [apply reachable_boot|].
  exact (proj1 (proj2 (proj2
    (subscribe_same_listener_twice _ 5 en
       (reachable_boot he Examples.healthy_storage))))).
Defined.

End ServiceTheory.

(** ** Properties of the gallery *)

Module GalleryTheory.
Import JS Gallery.
Local Open Scope Z_scope.

(** *** Every render throws *)

(** The dependency array of line 67 reads [handleClose], which line 83
    declares: the call of the component throws there, whatever the list of
    images and whatever the state, after the first effect has been handed
    to [useEffect] and before the two others are. *)
Lemma Gallery_throws st :
  Gallery st entry
  = (Thrown (ReferenceError "handleClose"),
     mkFrame ["i18nService"; "language"; "setLanguage";
              "selectedIndex"; "setSelectedIndex";
              "isLightboxOpen"; "setIsLightboxOpen";
              "loadingStates"; "setLoadingStates";
              "errorStates"; "setErrorStates"]
             [SubscriptionEffect]).
Proof. reflexivity. Qed.

(** Nothing else in the body throws: entered with the three callbacks
    already initialised, the body hands all three effects to [useEffect] and
    returns what lines 117-196 describe. *)
Lemma Gallery_returns_with_callbacks st :
  let r := Gallery st
             (mkFrame ["handleClose"; "handleNext"; "handlePrevious"] []) in
  r.1 = Done (view st) /\
  registered r.2 = [SubscriptionEffect; KeyboardEffect; LoadingEffect].
Proof.
  cbv zeta. unfold Gallery.
  destruct (isLightboxOpen st && bool_decide (is_Some (selectedImage st)));
    split; reflexivity.
Qed.

Lemma render_throws st : render st = inl (ReferenceError "handleClose").
Proof. unfold render. by rewrite Gallery_throws. Qed.

Lemma commit_throws images_changed st :
  commit images_changed st = inl (ReferenceError "handleClose").
Proof. unfold commit. by rewrite render_throws. Qed.

Lemma mount_throws imgs : mount imgs = inl (ReferenceError "handleClose").
Proof. unfold mount. apply commit_throws. Qed.

Lemma session_throws imgs evs :
  session imgs evs = inl (ReferenceError "handleClose").
Proof.
  unfold session. rewrite mount_throws.
  induction evs as [|ev evs IH]; [done|apply IH].
Qed.

(** *** The handlers as they are written *)

(** What the text of lines 88-98 does to a state; no render gets as far as
    creating these closures. *)
Lemma handleNext_open st i :
  lightbox st = Open i ->
  lightbox (handleNext st)
  = Open (if bool_decide (i + 1 < images_length st) then i + 1 else i)
  /\ images (handleNext st) = images st.
Proof.
  unfold lightbox, handleNext.
  destruct (isLightboxOpen st) eqn:Hopen; [|done].
  destruct (selectedIndex st) as [j|] eqn:Hsel; [|done].
  intros [= ->].
  destruct (bool_decide (i < images_length st - 1)) eqn:Hlt.
  - apply bool_decide_eq_true in Hlt. simpl.
    by rewrite bool_decide_eq_true_2 by lia.
  - apply bool_decide_eq_false in Hlt. rewrite Hopen, Hsel.
    by rewrite bool_decide_eq_false_2 by lia.
Qed.

Lemma handlePrevious_open st i :
  lightbox st = Open i ->
  lightbox (handlePrevious st)
  = Open (if bool_decide (0 <= i - 1) then i - 1 else i)
  /\ images (handlePrevious st) = images st.
Proof.
  unfold lightbox, handlePrevious.
  destruct (isLightboxOpen st) eqn:Hopen; [|done].
  destruct (selectedIndex st) as [j|] eqn:Hsel; [|done].
  intros [= ->].
  destruct (bool_decide (i > 0)) eqn:Hgt.
  - apply bool_decide_eq_true in Hgt. simpl.
    by rewrite bool_decide_eq_true_2 by lia.
  - apply bool_decide_eq_false in Hgt. rewrite Hopen, Hsel.
    by rewrite bool_decide_eq_false_2 by lia.
Qed.

(** *** The claims about the lightbox and the per-image flags *)

(** C6, at a failing input and at every other.  The claim has a lightbox
    open on position [i] and moves it with next and previous.  A gallery
    never gets there: for every list of images, the session that clicks
    thumbnail [i] and then presses next (or previous) [k] times is over
    with the [ReferenceError] of its first render, so no lightbox is open
    on any position; and no state whatever, also none with the lightbox
    open, is rendered with the two buttons.  For three images, thumbnail 0
    and one press of next, the claim has the lightbox on position 1. *)
Theorem lightbox_is_never_there_to_navigate
    (imgs : list GalleryImage) (i k : nat) :
  session imgs (ThumbnailClick i :: repeat Next k)
  = inl (ReferenceError "handleClose") /\
  session imgs (ThumbnailClick i :: repeat Previous k)
  = inl (ReferenceError "handleClose") /\
  lightbox_state (session Examples.three_pictures [ThumbnailClick 0; Next])
  <> Some (Open 1) /\
  (forall st, render st = inl (ReferenceError "handleClose")).
Proof.
  split_and!.
  - apply session_throws.
  - apply session_throws.
  - by rewrite session_throws.
  - apply render_throws.
Qed.

(** C7, at a failing input and at every other.  The claim gives the
    gallery a lightbox state, closed or open, in every state it reaches.
    The gallery has none: the first render of every list of images throws,
    nothing is mounted, and whatever events follow there is no lightbox
    state to observe, neither [Closed] nor [Open].  For three images the
    claim has the mounted gallery in the state [Closed]. *)
Theorem gallery_has_no_lightbox_state
    (imgs : list GalleryImage) (evs : list event) :
  mount imgs = inl (ReferenceError "handleClose") /\
  lightbox_state (session imgs evs) = None /\
  lightbox_state (mount Examples.three_pictures) <> Some Closed.
Proof.
  split_and!.
  - apply mount_throws.
  - by rewrite session_throws.
  - by rewrite mount_throws.
Qed.

(** C8, at a failing input and at every other.  The claim has every image
    of a new list seeded to loading.  The call of the component throws
    before the effect of lines 70-76 is handed to [useEffect], and the
    effects of a call that throws are not run: for every first list and
    every list that replaces it, no image has a loading flag or an errored
    flag.  For the list with the one image [a], the claim has the loading
    flag of [a] set. *)
Theorem list_change_seeds_no_image
    (imgs imgs' : list GalleryImage) (imageId : string) (st : state) :
  has_effect LoadingEffect (registered (Gallery st entry).2) = false /\
  loading_flag (mount imgs') imageId = None /\
  loading_flag (session imgs [SetImages imgs']) imageId = None /\
  errored_flag (session imgs [SetImages imgs']) imageId = None /\
  loading_flag (mount Examples.one_picture) "a" <> Some true.
Proof.
  split_and!.
  - by rewrite Gallery_throws.
  - by rewrite mount_throws.
  - by rewrite session_throws.
  - by rewrite session_throws.
  - by rewrite mount_throws.
Qed.

End GalleryTheory.

(** ** Properties of the lazy-load hook *)

Module LazyLoadTheory.
Import LazyLoad.

Lemma useLazyLoad_effect_without_observer rt options h :
  has_IntersectionObserver rt = false ->
  useLazyLoad_effect rt options true h = inr (mkHook true true (observer h)).
Proof. intros Hrt. unfold useLazyLoad_effect. by rewrite Hrt. Qed.

(** C9.  In a run-time without [IntersectionObserver] the effect of the hook,
    once the element is attached, does not throw and sets both
    [isIntersecting] and [hasIntersected]; no observer is created.  Mounting
    a [LazyImage] there ends, after the render that follows, with the source
    of the image requested although nothing ever intersected, and the image
    element is rendered (for a source that is not the empty string). *)
Theorem lazy_load_fails_open (rt : runtime) (options : UseLazyLoadOptions)
    (src : string) :
  has_IntersectionObserver rt = false ->
  (forall h, exists h',
     useLazyLoad_effect rt options true h = inr h' /\
     hasIntersected h' = true /\ isIntersecting h' = true /\
     observer h' = observer h) /\
  (exists c, mount rt src = inr c /\
     hasIntersected (the_hook c) = true /\
     observer (the_hook c) = None /\
     imageSrc (the_image (rerender src c)) = Some src /\
     (src <> "" -> renders_img (the_image (rerender src c)) = true)).
Proof.
  intros Hrt. split.
  - intros h. eexists. by rewrite useLazyLoad_effect_without_observer.
  - unfold mount. rewrite useLazyLoad_effect_without_observer by done.
    eexists. split_and!; try done.
    intros Hsrc. unfold renders_img, no_imageSrc. cbn.
    by rewrite bool_decide_eq_false_2.
Qed.

Lemma lazy_load_fails_open_witness :
  has_IntersectionObserver (mkRuntime false) = false /\
  exists c, mount (mkRuntime false) "/thumbs/a" = inr c /\
    hasIntersected (the_hook c) = true /\
    observer (the_hook c) = None /\
    imageSrc (the_image (rerender "/thumbs/a" c)) = Some "/thumbs/a" /\
    ("/thumbs/a" <> "" ->
     renders_img (the_image (rerender "/thumbs/a" c)) = true).
Proof.
  split; [reflexivity|].
  exact (proj2 (lazy_load_fails_open (mkRuntime false) LazyImage_options
                  "/thumbs/a" eq_refl)).
Defined.

End LazyLoadTheory.

(** ** More properties of the service *)

Module ServiceMore.
Import JS I18n I18nMore.
Local Open Scope list_scope.

(** *** The constructor and the storage *)

Lemma boot_run d storage :
  boot d storage
  = mkWorld (mkService (default d (stored_language storage))
                       (mkTranslations ∅ ∅) [])
            storage
            (match health storage with
             | Unavailable =>
                 [Warned "Failed to load language from localStorage:"
                         SecurityError]
             | _ => []
             end).
Proof.
  unfold boot, constructor, loadLanguageFromStorage, try_catch,
    localStorage_getItem, console_warn, emit, assign, mbind, M_bind,
    mret, M_ret, stored_language.
  cbn [localStorage health service trace].
  destruct (health storage); cbn [snd]; repeat case_decide; done.
Qed.

(** The constructor never throws and never writes: it starts from the
    stored language when the storage can be read and holds [he] or [en],
    and from the default language in every other case (nothing stored,
    another value stored, or a storage that throws, which only leaves a
    warning).  The new service has empty dictionaries and no listener. *)
Theorem constructor_reads_stored_language (d : Language) (w : world) :
  let w' := (constructor d w).2 in
  (constructor d w).1 = Return tt /\
  currentLanguage (service w')
  = default d (stored_language (localStorage w)) /\
  translations (service w') = mkTranslations ∅ ∅ /\
  listeners (service w') = [] /\
  localStorage w' = localStorage w /\
  (health (localStorage w) <> Unavailable -> trace w' = trace w) /\
  (forall v, items (localStorage w) !! STORAGE_KEY = Some v ->
     v <> "he" -> v <> "en" -> currentLanguage (service w') = d) /\
  (items (localStorage w) !! STORAGE_KEY = None ->
     currentLanguage (service w') = d) /\
  (health (localStorage w) = Unavailable ->
     currentLanguage (service w') = d).
Proof.
  unfold constructor, loadLanguageFromStorage, try_catch,
    localStorage_getItem, console_warn, emit, assign, mbind, M_bind,
    mret, M_ret, stored_language.
  destruct (health (localStorage w)) eqn:Hh; cbn [fst snd service
    localStorage trace currentLanguage translations listeners];
    repeat case_decide; split_and!; try done; intros; simplify_eq; done.
Qed.

Lemma constructor_reads_stored_language_witness :
  let w := mkWorld (mkService en (mkTranslations ∅ ∅) [])
             (mkStorage {[ STORAGE_KEY := "fr" ]} Healthy) [] in
  items (localStorage w) !! STORAGE_KEY = Some "fr" /\
  currentLanguage (service (constructor he w).2) = he.
Proof.
  split; [reflexivity|].
  pose proof (constructor_reads_stored_language he
    (mkWorld (mkService en (mkTranslations ∅ ∅) [])
       (mkStorage {[ STORAGE_KEY := "fr" ]} Healthy) [])) as H.
  destruct H as (_ & _ & _ & _ & _ & _ & H & _).
  apply (H "fr"); [reflexivity | discriminate | discriminate].
Defined.

(** *** What a history of calls leaves behind *)

Lemma perform_language o w :
  currentLanguage (service (perform o w).2)
  = match o with
    | SetLanguage language => language
    | _ => currentLanguage (service w)
    end.
Proof. destruct o; [simpl; by rewrite ServiceTheory.setLanguage_run|done..]. Qed.

Lemma perform_storage o w :
  localStorage (perform o w).2
  = match o with
    | SetLanguage language => storage_after_save language (localStorage w)
    | _ => localStorage w
    end.
Proof. destruct o; [simpl; by rewrite ServiceTheory.setLanguage_run|done..]. Qed.

Lemma perform_dictionary o w language :
  loads language o = false ->
  dictionary (translations (service (perform o w).2)) language
  = dictionary (translations (service w)) language.
Proof.
  destruct o as [l| | |l data]; [simpl; by rewrite ServiceTheory.setLanguage_run|done..|].
  simpl. intros Hl%bool_decide_eq_false. by destruct l, language.
Qed.

Lemma last_language_no_set init os :
  languages_set os = [] -> last_language init os = init.
Proof.
  revert init. induction os as [|o os IH]; intros init; [done|].
  destruct o; [done|..]; apply IH.
Qed.

(** [getLanguage] answers the argument of the most recent [setLanguage],
    whatever else was called since and whatever the storage did. *)
Theorem language_is_last_set (os : list op) (w : world) :
  (getLanguage (perform_all os w).2).1
  = Return (last_language (currentLanguage (service w)) os) /\
  (getDirection (perform_all os w).2).1
  = Return (match last_language (currentLanguage (service w)) os with
            | he => rtl
            | en => ltr
            end).
Proof.
  assert (H : currentLanguage (service (perform_all os w).2)
              = last_language (currentLanguage (service w)) os).
  { revert w. induction os as [|o os IH]; intros w; [done|].
    rewrite ServiceTheory.perform_all_cons, IH, perform_language.
    by destruct o. }
  unfold getLanguage, getDirection, mbind, M_bind, this, mret, M_ret.
  cbn [fst]. rewrite H. split; [done|].
  by destruct (last_language _ _).
Qed.

Lemma stored_after_history os w :
  health (localStorage w) = Healthy ->
  health (localStorage (perform_all os w).2) = Healthy /\
  items (localStorage (perform_all os w).2) !! STORAGE_KEY
  = if bool_decide (languages_set os = [])
    then items (localStorage w) !! STORAGE_KEY
    else Some (language_code (last_language (currentLanguage (service w)) os)).
Proof.
  revert w. induction os as [|o os IH]; intros w Hh; [done|].
  rewrite ServiceTheory.perform_all_cons.
  assert (Hh1 : health (localStorage (perform o w).2) = Healthy).
  { rewrite perform_storage. destruct o; try done.
    unfold storage_after_save. by rewrite Hh. }
  destruct (IH _ Hh1) as [-> ->]. split; [done|].
  rewrite perform_language, perform_storage.
  destruct o as [language| | |]; try done.
  rewrite (bool_decide_eq_false_2 (languages_set (SetLanguage language :: os) = []))
    by done.
  case_bool_decide as Hnone; [|done].
  cbn [last_language foldl]. fold (last_language language os).
  rewrite (last_language_no_set _ _ Hnone).
  unfold storage_after_save. rewrite Hh. cbn [items].
  by rewrite lookup_insert_eq.
Qed.

(** The choice of language survives a reload: after any history with at
    least one [setLanguage] on a storage that works, a service constructed
    on what the storage then holds starts in the language set last,
    whatever its default language. *)
Theorem language_survives_reload (os : list op) (w : world) (d : Language) :
  health (localStorage w) = Healthy ->
  languages_set os <> [] ->
  currentLanguage (service (boot d (localStorage (perform_all os w).2)))
  = last_language (currentLanguage (service w)) os.
Proof.
  intros Hh Hset. destruct (stored_after_history os w Hh) as [Hh' Hitems].
  rewrite bool_decide_eq_false_2 in Hitems by done.
  rewrite boot_run. cbn [service currentLanguage].
  unfold stored_language. rewrite Hh', Hitems.
  by destruct (last_language _ _).
Qed.

Lemma language_survives_reload_witness :
  let w := boot he Examples.healthy_storage in
  let os := [Subscribe 1; SetLanguage en; SetLanguage he; SetLanguage en] in
  health (localStorage w) = Healthy /\
  languages_set os <> [] /\
  currentLanguage (service (boot he (localStorage (perform_all os w).2))) = en.
Proof.
  assert (H1 : health (localStorage (boot he Examples.healthy_storage))
               = Healthy) by reflexivity.
  assert (H2 : languages_set
                 [Subscribe 1; SetLanguage en; SetLanguage he; SetLanguage en]
               <> []) by discriminate.
  split_and!; [done..|].
  exact (language_survives_reload _ _ he H1 H2).
Defined.

(** The service only ever touches its own key of the storage: every other
    item is as it was after any history of calls, the health of the storage
    is not changed, and what is stored under the key of the service is
    either what was there or the code of a language. *)
Theorem storage_frame (os : list op) (w : world) :
  (forall k, k <> STORAGE_KEY ->
     items (localStorage (perform_all os w).2) !! k
     = items (localStorage w) !! k) /\
  health (localStorage (perform_all os w).2) = health (localStorage w) /\
  (items (localStorage (perform_all os w).2) !! STORAGE_KEY
   = items (localStorage w) !! STORAGE_KEY \/
   exists language,
     items (localStorage (perform_all os w).2) !! STORAGE_KEY
     = Some (language_code language)).
Proof.
  revert w. induction os as [|o os IH]; intros w.
  { split_and!; auto. }
  rewrite ServiceTheory.perform_all_cons.
  destruct (IH (perform o w).2) as (Hother & Hhealth & Hkey).
  assert (Hstep : localStorage (perform o w).2 = localStorage w \/
                  exists language,
                    localStorage (perform o w).2
                    = mkStorage (<[STORAGE_KEY := language_code language]>
                                   (items (localStorage w))) Healthy /\
                    health (localStorage w) = Healthy).
  { rewrite perform_storage. destruct o as [language| | |]; auto.
    unfold storage_after_save.
    destruct (health (localStorage w)) eqn:Hh; eauto. }
  destruct Hstep as [Hsame|(language & Hnew & Hh)].
  - rewrite Hsame in *. done.
  - split_and!.
    + intros k Hk. rewrite Hother by done. rewrite Hnew. cbn [items].
      by rewrite lookup_insert_ne.
    + rewrite Hhealth, Hnew. by rewrite Hh.
    + destruct Hkey as [Hkey|Hkey]; [|by right].
      right. exists language. rewrite Hkey, Hnew. cbn [items].
      by rewrite lookup_insert_eq.
Qed.

Lemma storage_frame_witness :
  let w := boot he (mkStorage {[ "theme" := "dark" ]} Healthy) in
  "theme" <> STORAGE_KEY /\
  items (localStorage (perform_all [SetLanguage en; Subscribe 2] w).2) !! "theme"
  = Some "dark".
Proof.
  split; [discriminate|].
  exact (proj1 (storage_frame [SetLanguage en; Subscribe 2]
                  (boot he (mkStorage {[ "theme" := "dark" ]} Healthy)))
           "theme" ltac:(discriminate)).
Defined.

(** *** The listeners, beyond a single one *)

Lemma called_listeners_app (evs1 evs2 : list event) :
  called_listeners (evs1 ++ evs2)
  = called_listeners evs1 ++ called_listeners evs2.
Proof. unfold called_listeners. apply omap_app. Qed.

Lemma called_listeners_notifications language ls :
  called_listeners (notifications language ls) = ls.
Proof. induction ls as [|l ls IH]; [done|]. cbn. f_equal. exact IH. Qed.

Lemma called_listeners_setLanguage language w :
  called_listeners (emitted (setLanguage language) w) = listeners (service w).
Proof.
  rewrite ServiceTheory.setLanguage_emitted, called_listeners_app.
  rewrite called_listeners_notifications.
  unfold save_events. by destruct (health (localStorage w)).
Qed.

(** A listener that stays registered receives exactly the languages that
    are set, in the order they are set: no call is dropped and none is
    merged, not even when the same language is set again. *)
Theorem listener_sees_every_language (os : list op) (w : world)
    (cb : listener) :
  reachable w ->
  cb ∈ listeners (service w) ->
  Unsubscribe cb ∉ os ->
  calls_of cb (emitted (perform_all os) w) = languages_set os.
Proof.
  revert w. induction os as [|o os IH]; intros w Hw Hin Hos.
  - unfold emitted. simpl. by rewrite drop_all.
  - apply not_elem_of_cons in Hos as [Ho Hos].
    rewrite ServiceTheory.perform_all_emitted_cons, ServiceTheory.calls_of_app.
    rewrite IH; [|by apply reachable_perform| |done].
    + rewrite ServiceTheory.perform_emitted_calls.
      destruct o as [language| | |]; try done.
      rewrite ServiceTheory.calls_of_notifications_present;
        [done|by apply ServiceTheory.reachable_NoDup|done].
    + rewrite ServiceTheory.perform_listeners.
      destruct o as [| |l'|]; simpl; try done.
      * apply ServiceTheory.elem_of_set_add. by right.
      * apply ServiceTheory.elem_of_set_delete. split; [congruence|done].
Qed.

Lemma listener_sees_every_language_witness :
  let w := (subscribe 4 (boot he Examples.healthy_storage)).2 in
  let os := [SetLanguage en; SetLanguage en; Subscribe 5; SetLanguage he] in
  reachable w /\ (4 ∈ listeners (service w)) /\ (Unsubscribe 4 ∉ os) /\
  calls_of 4 (emitted (perform_all os) w) = [en; en; he].
Proof.
  assert (H1 : reachable (subscribe 4 (boot he Examples.healthy_storage)).2).
  { apply (reachable_perform (Subscribe 4)), reachable_boot. }
  assert (H2 : 4 ∈ listeners
                 (service (subscribe 4 (boot he Examples.healthy_storage)).2)).
  { by left. }
  assert (H3 : Unsubscribe 4
               ∉ [SetLanguage en; SetLanguage en; Subscribe 5; SetLanguage he]).
  { intros H. by repeat (apply elem_of_cons in H as [?|H]; [done|]);
      apply elem_of_nil in H. }
  split_and!; [done..|].
  exact (listener_sees_every_language _ _ 4 H1 H2 H3).
Defined.

Section order.
Context (a b : listener).
Let P := fun l : listener => l = a \/ l = b.

Lemma filter_pair_none ls : a ∉ ls -> b ∉ ls -> filter P ls = [].
Proof.
  induction ls as [|l ls IH]; [done|].
  intros [Ha1 Ha2]%not_elem_of_cons [Hb1 Hb2]%not_elem_of_cons.
  rewrite filter_cons, decide_False; [by apply IH|].
  unfold P. intros [->| ->]; done.
Qed.

Lemma filter_pair_start ls :
  NoDup ls -> a ∈ ls -> b ∉ ls -> filter P ls = [a].
Proof.
  induction 1 as [|l ls Hl Hnd IH]; [by intros ?%elem_of_nil|].
  intros Ha [Hb1 Hb2]%not_elem_of_cons.
  rewrite filter_cons. destruct (decide (l = a)) as [->|Hla].
  - rewrite decide_True by (by left). f_equal.
    by apply filter_pair_none.
  - apply elem_of_cons in Ha as [->|Ha]; [done|].
    rewrite decide_False; [by apply IH|].
    unfold P. intros [->| ->]; done.
Qed.

Lemma filter_pair_delete c ls :
  c <> a -> c <> b ->
  filter P (set_delete c ls) = filter P ls.
Proof.
  intros Ha Hb. unfold set_delete.
  induction ls as [|l ls IH]; [done|].
  rewrite !filter_cons. destruct (decide (l <> c)) as [Hlc|Hlc].
  - rewrite filter_cons. by rewrite IH.
  - assert (l = c) as -> by (by destruct (decide (l = c))).
    rewrite decide_False; [done|]. unfold P. intros [->| ->]; done.
Qed.

Lemma filter_pair_add c ls :
  filter P ls = [a; b] -> filter P (set_add c ls) = [a; b].
Proof.
  intros Hab. unfold set_add. case_decide as Hc; [done|].
  rewrite filter_app, Hab.
  assert (Hin : forall l, l ∈ [a; b] -> l ∈ ls).
  { intros l. rewrite <- Hab. by intros [_ ?]%list_elem_of_filter. }
  rewrite filter_cons, decide_False; [done|].
  intros [->| ->]; apply Hc, Hin; [by left|by right; left].
Qed.

Lemma filter_pair_history os w :
  Unsubscribe a ∉ os -> Unsubscribe b ∉ os ->
  filter P (listeners (service w)) = [a; b] ->
  filter P (listeners (service (perform_all os w).2)) = [a; b].
Proof.
  revert w. induction os as [|o os IH]; intros w Ha Hb Hab; [done|].
  apply not_elem_of_cons in Ha as [Hoa Ha].
  apply not_elem_of_cons in Hb as [Hob Hb].
  rewrite ServiceTheory.perform_all_cons. apply IH; [done..|].
  rewrite ServiceTheory.perform_listeners.
  destruct o as [|c|c|]; simpl; try done.
  - by apply filter_pair_add.
  - rewrite filter_pair_delete; [done|congruence..].
Qed.

(** Listeners are called in the order of their subscriptions: when [a] is
    registered and [b] is not, and [b] then subscribes, every later
    [setLanguage] calls [a] before [b], as long as neither has been
    unsubscribed; subscriptions and removals of other listeners, and new
    subscriptions of [a] or [b], do not change that. *)
Theorem listeners_called_in_subscription_order (w : world) (os : list op)
    (x : Language) :
  reachable w ->
  a ∈ listeners (service w) ->
  b ∉ listeners (service w) ->
  Unsubscribe a ∉ os ->
  Unsubscribe b ∉ os ->
  filter P (called_listeners
              (emitted (setLanguage x)
                 (perform_all os (subscribe b w).2).2))
  = [a; b].
Proof.
  intros Hw Ha Hb Hosa Hosb.
  rewrite called_listeners_setLanguage.
  apply filter_pair_history; [done..|].
  rewrite ServiceTheory.subscribe_run. cbn [snd service listeners].
  unfold set_add. rewrite decide_False by done.
  rewrite filter_app, filter_pair_start;
    [|by apply ServiceTheory.reachable_NoDup|done..].
  rewrite filter_cons, decide_True by (by right). done.
Qed.

End order.

Lemma listeners_called_in_subscription_order_witness :
  let w := (subscribe 1 (boot he Examples.healthy_storage)).2 in
  let os := [Subscribe 3; Unsubscribe 3; Subscribe 1; SetLanguage he] in
  reachable w /\ (1 ∈ listeners (service w)) /\ (2 ∉ listeners (service w)) /\
  (Unsubscribe 1 ∉ os) /\ (Unsubscribe 2 ∉ os) /\
  filter (fun l => l = 1 \/ l = 2)
    (called_listeners
       (emitted (setLanguage en) (perform_all os (subscribe 2 w).2).2))
  = [1; 2].
Proof.
  assert (H1 : reachable (subscribe 1 (boot he Examples.healthy_storage)).2).
  { apply (reachable_perform (Subscribe 1)), reachable_boot. }
  assert (H2 : 1 ∈ listeners
                 (service (subscribe 1 (boot he Examples.healthy_storage)).2)).
  { by left. }
  assert (H3 : 2 ∉ listeners
                 (service (subscribe 1 (boot he Examples.healthy_storage)).2)).
  { intros H. apply elem_of_cons in H as [?|H]; [done|].
    by apply elem_of_nil in H. }
  assert (H4 : Unsubscribe 1
               ∉ [Subscribe 3; Unsubscribe 3; Subscribe 1; SetLanguage he]).
  { intros H. by repeat (apply elem_of_cons in H as [?|H]; [done|]);
      apply elem_of_nil in H. }
  assert (H5 : Unsubscribe 2
               ∉ [Subscribe 3; Unsubscribe 3; Subscribe 1; SetLanguage he]).
  { intros H. by repeat (apply elem_of_cons in H as [?|H]; [done|]);
      apply elem_of_nil in H. }
  split_and!; [done..|].
  exact (listeners_called_in_subscription_order 1 2 _ _ en H1 H2 H3 H4 H5).
Defined.

(** Unsubscribing removes exactly one registration: every other listener is
    still registered and still called once by the next [setLanguage]; the
    language, the dictionaries, the storage and the trace are as before. *)
Theorem unsubscribe_leaves_the_others (w : world) (cb l : listener)
    (x : Language) :
  reachable w ->
  l ∈ listeners (service w) ->
  l <> cb ->
  let w' := (unsubscribe cb w).2 in
  (l ∈ listeners (service w')) /\
  calls_of l (emitted (setLanguage x) w') = [x] /\
  (cb ∉ listeners (service w')) /\
  currentLanguage (service w') = currentLanguage (service w) /\
  translations (service w') = translations (service w) /\
  localStorage w' = localStorage w /\
  trace w' = trace w.
Proof.
  intros Hw Hl Hne w'.
  assert (Hin : l ∈ listeners (service w')).
  { unfold w'. rewrite ServiceTheory.unsubscribe_run. cbn.
    by apply ServiceTheory.elem_of_set_delete. }
  split_and!; try done.
  - rewrite ServiceTheory.setLanguage_emitted, ServiceTheory.calls_of_app,
      ServiceTheory.calls_of_save_events.
    apply ServiceTheory.calls_of_notifications_present; [|done].
    apply ServiceTheory.reachable_NoDup.
    apply (reachable_perform (Unsubscribe cb) w Hw).
  - unfold w'. rewrite ServiceTheory.unsubscribe_run. cbn.
    rewrite ServiceTheory.elem_of_set_delete. tauto.
Qed.

Lemma unsubscribe_leaves_the_others_witness :
  let w := (perform_all [Subscribe 1; Subscribe 2]
              (boot he Examples.healthy_storage)).2 in
  reachable w /\ (2 ∈ listeners (service w)) /\ 2 <> 1 /\
  calls_of 2 (emitted (setLanguage en) (unsubscribe 1 w).2) = [en].
Proof.
  assert (H1 : reachable (perform_all [Subscribe 1; Subscribe 2]
                            (boot he Examples.healthy_storage)).2).
  { apply ServiceTheory.reachable_perform_all, reachable_boot. }
  assert (H2 : 2 ∈ listeners
                 (service (perform_all [Subscribe 1; Subscribe 2]
                             (boot he Examples.healthy_storage)).2)).
  { right. by left. }
  assert (H3 : 2 <> 1) by discriminate.
  split_and!; [done..|].
  exact (proj1 (proj2 (unsubscribe_leaves_the_others _ 1 2 en H1 H2 H3))).
Defined.

End ServiceMore.

(** ** More properties of [translate] *)

Module TranslateMore.
Import JS I18n I18nMore.
Local Open Scope list_scope.

(** *** Keys and their segments *)

Lemma split_cons sep s : exists piece pieces, split sep s = piece :: pieces.
Proof.
  induction s as [|c s (piece & pieces & IH)]; [by eexists _, _|].
  cbn [split]. case_decide; [by eexists _, _|].
  rewrite IH. by eexists _, _.
Qed.

Lemma join_dots_cons p q r :
  join_dots (p :: q :: r) = (p ++ "." ++ join_dots (q :: r))%string.
Proof. reflexivity. Qed.

(** Splitting a key on its dots loses nothing: the segments, joined by
    dots, are the key again; no segment holds a dot; and there is one
    segment more than there are dots (so always at least one). *)
Theorem split_join_round_trip (key : string) :
  join_dots (split "." key) = key /\
  Forall (fun piece => has_char "." piece = false) (split "." key) /\
  List.length (split "." key)
  = S (List.length (filter (fun c => c = "."%char)
                      (list_ascii_of_string key))).
Proof.
  induction key as [|c key (IHjoin & IHdot & IHlen)]; [by repeat constructor|].
  destruct (split_cons "." key) as (piece & pieces & Hsplit).
  cbn [split list_ascii_of_string]. rewrite filter_cons.
  rewrite Hsplit in *. destruct (decide (c = "."%char)) as [->|Hc].
  - split_and!.
    + by rewrite join_dots_cons, IHjoin.
    + by constructor.
    + simpl. f_equal. exact IHlen.
  - split_and!.
    + rewrite <- IHjoin. by destruct pieces.
    + apply Forall_cons in IHdot as [Hpiece Hpieces].
      constructor; [|done]. cbn [has_char].
      rewrite Hpiece. by rewrite bool_decide_eq_false_2.
    + done.
Qed.

(** *** Dictionaries *)

Lemma resolve_empty k keys : resolve (TObj ∅) (k :: keys) = None.
Proof. cbn [resolve]. by rewrite lookup_empty. Qed.

(** A key that resolves to nothing in both dictionaries comes back. *)
Lemma translate_unresolved svc key :
  resolve (active_dictionary svc) (split "." key) = None ->
  resolve (english_dictionary svc) (split "." key) = None ->
  translate svc key None = Some key.
Proof.
  intros Hact Heng.
  rewrite TranslateTheory.translate_unfold, TranslateTheory.walk_fallback.
  destruct (fallback_walk (VData (active_dictionary svc)) _) as [v|] eqn:Hw.
  { by rewrite (TranslateTheory.fallback_walk_missing _ _ _ Hact Hw). }
  destruct (fallback_walk (VData (english_dictionary svc)) _) as [v|] eqn:Hw';
    [|done].
  by rewrite (TranslateTheory.fallback_walk_missing _ _ _ Heng Hw').
Qed.

Lemma perform_all_dictionary os w language :
  forallb (fun o => negb (loads language o)) os = true ->
  dictionary (translations (service (perform_all os w).2)) language
  = dictionary (translations (service w)) language.
Proof.
  revert w. induction os as [|o os IH]; intros w Hos; [done|].
  cbn [forallb] in Hos. apply andb_true_iff in Hos as [Ho%negb_true_iff Hos].
  rewrite ServiceTheory.perform_all_cons, IH by done.
  by apply ServiceMore.perform_dictionary.
Qed.

(** Until dictionaries are loaded, every key is its own translation: a
    new service, whatever its language and whatever is called on it short
    of [loadTranslations], translates each key to the key itself. *)
Theorem new_service_translates_to_the_key (d : Language) (storage : Storage)
    (os : list op) (key : string) :
  forallb (fun o => negb (loads he o) && negb (loads en o)) os = true ->
  translate (service (perform_all os (boot d storage)).2) key None = Some key.
Proof.
  intros Hos.
  assert (Hdict : forall language,
            dictionary (translations
                          (service (perform_all os (boot d storage)).2))
                       language = ∅).
  { intros language. rewrite perform_all_dictionary.
    - rewrite ServiceMore.boot_run. by destruct language.
    - apply forallb_forall. intros o Ho.
      apply (proj1 (forallb_forall _ _) Hos) in Ho.
      apply andb_true_iff in Ho as [? ?]. by destruct language. }
  destruct (split_cons "." key) as (k & keys & Hsplit).
  apply translate_unresolved; unfold active_dictionary, english_dictionary;
    rewrite Hdict, Hsplit; apply resolve_empty.
Qed.

Lemma new_service_translates_to_the_key_witness :
  translate
    (service (perform_all [SetLanguage en; Subscribe 1]
                (boot he Examples.healthy_storage)).2)
    "navigation.about" None
  = Some "navigation.about".
Proof.
  exact (new_service_translates_to_the_key he Examples.healthy_storage
           [SetLanguage en; Subscribe 1] "navigation.about" eq_refl).
Defined.

(** The last dictionary loaded for a language is the one in use, whatever
    is called afterwards short of another load for that language; loading
    a dictionary for one language leaves the other one alone; and when that
    language is the active one, every key that leads to a string in the
    loaded dictionary is translated to that string. *)
Theorem loaded_dictionary_is_used (w : world) (language : Language)
    (data : gmap string tdata) (os : list op) :
  forallb (fun o => negb (loads language o)) os = true ->
  let w1 := (loadTranslations language data w).2 in
  let w' := (perform_all os w1).2 in
  dictionary (translations (service w')) language = data /\
  (forall other, other <> language ->
     dictionary (translations (service w1)) other
     = dictionary (translations (service w)) other) /\
  (forall key s,
     currentLanguage (service w') = language ->
     resolve (TObj data) (split "." key) = Some (TStr s) ->
     translate (service w') key None = Some s).
Proof.
  intros Hos w1 w'.
  assert (Hdata : dictionary (translations (service w')) language = data).
  { unfold w'. rewrite perform_all_dictionary by done.
    unfold w1. by destruct language. }
  split_and!; [done| |].
  - intros other Hne. unfold w1. by destruct language, other.
  - intros key s Hcur Hres. apply TranslateTheory.translate_active.
    unfold active_dictionary. by rewrite Hcur, Hdata.
Qed.

Lemma loaded_dictionary_is_used_witness :
  let w := boot he Examples.healthy_storage in
  let w' := (perform_all [LoadTranslations en ∅; Subscribe 1]
               (loadTranslations he Examples.hebrew_partial_data w).2).2 in
  translate (service w') "navigation.about" None = Some "אודות".
Proof.
  exact (proj2 (proj2
    (loaded_dictionary_is_used (boot he Examples.healthy_storage) he
       Examples.hebrew_partial_data [LoadTranslations en ∅; Subscribe 1]
       eq_refl))
    "navigation.about" "אודות" eq_refl eq_refl).
Defined.

(** With English as the active language, [translate] answers the entry of
    the English dictionary when the key leads to a string there, and the
    key itself in every other case; the Hebrew dictionary plays no part. *)
Theorem translate_in_english (svc : I18nService) (key : string) :
  currentLanguage svc = en ->
  translate svc key None
  = Some (default key
            (string_leaf (resolve (english_dictionary svc) (split "." key)))).
Proof.
  intros Hen.
  assert (Hact : active_dictionary svc = english_dictionary svc).
  { unfold active_dictionary, english_dictionary. by rewrite Hen. }
  destruct (resolve (english_dictionary svc) (split "." key))
    as [[s|props]|] eqn:Hres.
  - apply TranslateTheory.translate_active. by rewrite Hact.
  - rewrite TranslateTheory.translate_unfold, TranslateTheory.walk_fallback.
    rewrite Hact.
    by rewrite (TranslateTheory.fallback_walk_resolve _ _ _ Hres).
  - apply translate_unresolved; by rewrite ?Hact.
Qed.

Lemma translate_in_english_witness :
  currentLanguage (Examples.test_service en) = en /\
  translate (Examples.test_service en) "navigation" None = Some "navigation".
Proof.
  split; [reflexivity|].
  exact (translate_in_english (Examples.test_service en) "navigation" eq_refl).
Defined.

Lemma walk_ordinary (svc : I18nService) (keys : list string) :
  Forall (fun k => inherited k = false) keys ->
  walk (VData (english_dictionary svc)) keys
       (VData (active_dictionary svc)) keys
  = VData <$> (match resolve (active_dictionary svc) keys with
               | Some d => Some d
               | None => resolve (english_dictionary svc) keys
               end).
Proof.
  intros Hord. rewrite TranslateTheory.walk_fallback.
  rewrite !(TranslateTheory.fallback_walk_ordinary _ _ Hord).
  by destruct (resolve (active_dictionary svc) keys).
Qed.

(** [translate] without parameters, for a key none of whose segments names
    a member of [Object.prototype]: the entry of the active dictionary when
    the path exists there, otherwise the entry of the English dictionary;
    the answer is that entry when it is a string and the key itself in
    every other case.  A path that exists in the active dictionary and ends
    on a group of entries is not looked up in English. *)
Theorem translate_ordinary_key (svc : I18nService) (key : string) :
  Forall (fun k => inherited k = false) (split "." key) ->
  translate svc key None
  = Some (default key
            (string_leaf
               (match resolve (active_dictionary svc) (split "." key) with
                | Some d => Some d
                | None => resolve (english_dictionary svc) (split "." key)
                end))).
Proof.
  intros Hord. rewrite TranslateTheory.translate_unfold.
  rewrite (walk_ordinary svc _ Hord).
  destruct (resolve (active_dictionary svc) (split "." key)) as [[s|props]|];
    [done..|].
  by destruct (resolve (english_dictionary svc) (split "." key))
    as [[s|props]|].
Qed.

Lemma translate_ordinary_key_witness :
  translate (Examples.test_service he) "navigation.articles" None
  = Some "Articles".
Proof.
  apply (translate_ordinary_key
           (Examples.test_service he) "navigation.articles").
  repeat constructor.
Defined.

End TranslateMore.

(** ** More on parameters *)

Module InterpolationMore.
Import JS I18n.
Local Open Scope list_scope.

(** [translate] with parameters, for an ordinary key: when the entry the
    key leads to (in the active dictionary, or in the English one when the
    path is missing from the active one) is a well-formed template, the
    answer is the template with every placeholder that names a parameter
    replaced by the value of that parameter, and every other placeholder
    left as it is. *)
Theorem translate_fills_the_placeholders (svc : I18nService) (key : string)
    (entries : list (string * string)) (segs : list segment) :
  Forall (fun k => inherited k = false) (split "." key) ->
  match resolve (active_dictionary svc) (split "." key) with
  | Some d => Some d
  | None => resolve (english_dictionary svc) (split "." key)
  end = Some (TStr (render segs)) ->
  forallb ordinary_entry entries = true ->
  forallb well_formed_segment segs = true ->
  translate svc key (Some entries) = Some (render (map (fill entries) segs)).
Proof.
  intros Hord Hres Hentries Hsegs. unfold translate.
  fold (english_dictionary svc). fold (active_dictionary svc).
  cbv zeta. rewrite (TranslateMore.walk_ordinary svc _ Hord), Hres.
  cbn [fmap option_fmap option_map typeof_string].
  by apply InterpolationTheory.interpolate_well_formed.
Qed.

Lemma translate_fills_the_placeholders_witness :
  translate (Examples.test_service he) "greeting"
    (Some [("count", "3"); ("name", "Ofra")])
  = Some "Hello Ofra".
Proof.
  apply (translate_fills_the_placeholders
           (Examples.test_service he) "greeting"
           [("count", "3"); ("name", "Ofra")]
           [Text "Hello "; Hole "name"]).
  - repeat constructor.
  - reflexivity.
  - reflexivity.
  - reflexivity.
Defined.

Lemma param_value_elem name v entries :
  NoDup entries.*1 ->
  param_value name entries = Some v <-> (name, v) ∈ entries.
Proof.
  induction entries as [|[k v'] entries IH]; intros Hnd.
  - split; [done|by intros ?%elem_of_nil].
  - cbn [fmap list_fmap] in Hnd. apply NoDup_cons in Hnd as [Hk Hnd].
    cbn [param_value]. rewrite elem_of_cons. case_decide as Hkn.
    + subst k. split; [intros [= ->]; by left|].
      intros [[= ->]|Hin]; [done|]. destruct Hk.
      apply list_elem_of_fmap. by exists (name, v).
    + rewrite IH by done. split; [by right|].
      intros [[= -> ->]|Hin]; done.
Qed.

Lemma param_value_perm name entries entries' :
  NoDup entries.*1 -> entries ≡ₚ entries' ->
  param_value name entries = param_value name entries'.
Proof.
  intros Hnd Hperm.
  assert (Hnd' : NoDup entries'.*1) by (by rewrite <- Hperm).
  destruct (param_value name entries) as [v|] eqn:Hv.
  - symmetry. apply param_value_elem; [done|]. rewrite <- Hperm.
    by apply param_value_elem.
  - destruct (param_value name entries') as [v|] eqn:Hv'; [|done].
    apply param_value_elem in Hv'; [|done]. rewrite <- Hperm in Hv'.
    apply param_value_elem in Hv'; [|done]. congruence.
Qed.

(** For ordinary parameters and a well-formed template the order of the
    entries of [params] does not matter: any permutation of the entries
    gives the same string. *)
Theorem interpolate_order_irrelevant (entries entries' : list (string * string))
    (segs : list segment) :
  NoDup entries.*1 ->
  entries ≡ₚ entries' ->
  forallb ordinary_entry entries = true ->
  forallb well_formed_segment segs = true ->
  interpolate entries (render segs) = interpolate entries' (render segs).
Proof.
  intros Hnd Hperm Hord Hwf.
  assert (Hord' : forallb ordinary_entry entries' = true).
  { apply forallb_forall. intros e He. apply list_elem_of_In in He.
    rewrite <- Hperm in He. apply list_elem_of_In in He.
    by apply (proj1 (forallb_forall _ _) Hord). }
  rewrite !InterpolationTheory.interpolate_well_formed by done.
  do 2 f_equal. apply map_ext. intros [t|name]; [done|].
  cbn [fill]. by rewrite (param_value_perm name entries entries').
Qed.

Lemma interpolate_order_irrelevant_witness :
  interpolate [("a", "1"); ("b", "2")] "{{b}}-{{a}}"
  = interpolate [("b", "2"); ("a", "1")] "{{b}}-{{a}}".
Proof.
  apply (interpolate_order_irrelevant
           [("a", "1"); ("b", "2")] [("b", "2"); ("a", "1")]
           [Hole "b"; Text "-"; Hole "a"]).
  - apply (bool_decide_unpack _). by vm_compute.
  - apply perm_swap.
  - reflexivity.
  - reflexivity.
Defined.

Lemma fill_well_formed entries segs :
  forallb ordinary_entry entries = true ->
  forallb well_formed_segment segs = true ->
  forallb well_formed_segment (map (fill entries) segs) = true.
Proof.
  intros Hord. induction segs as [|seg segs IH]; [done|].
  cbn [map forallb]. intros [Hseg Hwf]%andb_true_iff.
  rewrite IH by done. rewrite andb_true_r.
  destruct seg as [t|name]; [done|]. cbn [fill].
  destruct (param_value name entries) as [v|] eqn:Hv; [|done].
  cbn [well_formed_segment].
  clear -Hord Hv. induction entries as [|[k v'] entries IH]; [done|].
  cbn [forallb] in Hord. apply andb_true_iff in Hord as [Hentry Hord].
  cbn [param_value] in Hv. case_decide; [|by apply IH].
  injection Hv as ->. unfold ordinary_entry in Hentry.
  by apply andb_true_iff in Hentry as [_ ?].
Qed.

Lemma fill_idempotent entries seg :
  fill entries (fill entries seg) = fill entries seg.
Proof.
  destruct seg as [t|name]; [done|]. cbn [fill].
  destruct (param_value name entries) eqn:Hv; [done|].
  cbn [fill]. by rewrite Hv.
Qed.

(** Interpolating twice changes nothing: for ordinary parameters and a
    well-formed template, the result of the substitution is left as it
    is by a second substitution with the same parameters. *)
Theorem interpolate_idempotent (entries : list (string * string))
    (segs : list segment) :
  forallb ordinary_entry entries = true ->
  forallb well_formed_segment segs = true ->
  exists result,
    interpolate entries (render segs) = Some result /\
    interpolate entries result = Some result.
Proof.
  intros Hord Hwf. eexists. split.
  - by apply InterpolationTheory.interpolate_well_formed.
  - rewrite InterpolationTheory.interpolate_well_formed
      by auto using fill_well_formed.
    rewrite map_map. do 2 f_equal. apply map_ext. intros seg.
    apply fill_idempotent.
Qed.

Lemma interpolate_idempotent_witness :
  exists result,
    interpolate [("name", "Ofra")] "Hello {{name}}, {{title}}" = Some result /\
    interpolate [("name", "Ofra")] result = Some result.
Proof.
  exact (interpolate_idempotent [("name", "Ofra")]
           [Text "Hello "; Hole "name"; Text ", "; Hole "title"]
           eq_refl eq_refl).
Defined.

End InterpolationMore.

(** ** The language switcher and the service *)

Module SwitcherTheory.
Import I18n LanguageSwitcher.
Local Open Scope list_scope.

(** The switcher sets the service to the language opposite to its own copy
    of the language; the listener it registered receives that language, so
    that after one toggle the copy and the service agree, and a second
    toggle brings the first language back. *)
Theorem toggle_flips_and_resynchronises (w : world) (cb : listener)
    (local : state) :
  reachable w ->
  cb ∈ listeners (service w) ->
  let opposite := if decide (local = he) then en else he in
  let w1 := (handleToggle local w).2 in
  let local1 := after_calls local (calls_of cb (emitted (handleToggle local) w)) in
  let w2 := (handleToggle local1 w1).2 in
  let local2 :=
    after_calls local1 (calls_of cb (emitted (handleToggle local1) w1)) in
  (handleToggle local w).1 = Return tt /\
  currentLanguage (service w1) = opposite /\
  local1 = opposite /\
  currentLanguage (service w2) = local /\
  local2 = local.
Proof.
  intros Hw Hin opposite w1 local1 w2 local2.
  assert (Hcalls : forall w' language,
            reachable w' -> cb ∈ listeners (service w') ->
            calls_of cb (emitted (setLanguage language) w') = [language]).
  { intros w' language Hw' Hin'.
    rewrite ServiceTheory.setLanguage_emitted, ServiceTheory.calls_of_app,
      ServiceTheory.calls_of_save_events.
    apply ServiceTheory.calls_of_notifications_present; [|done].
    by apply ServiceTheory.reachable_NoDup. }
  assert (Hlocal1 : local1 = opposite).
  { unfold local1, handleToggle. by rewrite Hcalls. }
  assert (Hw1 : reachable w1).
  { apply (reachable_perform (SetLanguage opposite) w Hw). }
  assert (Hin1 : cb ∈ listeners (service w1)).
  { unfold w1, handleToggle. by rewrite ServiceTheory.setLanguage_run. }
  assert (Hback : (if decide (opposite = he) then en else he) = local).
  { unfold opposite. by destruct local. }
  split_and!.
  - unfold handleToggle. by rewrite ServiceTheory.setLanguage_run.
  - unfold w1, handleToggle. by rewrite ServiceTheory.setLanguage_run.
  - done.
  - unfold w2, handleToggle. rewrite ServiceTheory.setLanguage_run.
    cbn [snd service currentLanguage]. by rewrite Hlocal1.
  - unfold local2, handleToggle. rewrite Hcalls by done.
    cbn. by rewrite Hlocal1.
Qed.

Lemma toggle_flips_and_resynchronises_witness :
  let w := (subscribe 9 (boot he Examples.healthy_storage)).2 in
  reachable w /\ (9 ∈ listeners (service w)) /\
  currentLanguage (service (handleToggle he w).2) = en.
Proof.
  assert (H1 : reachable (subscribe 9 (boot he Examples.healthy_storage)).2).
  { apply (reachable_perform (Subscribe 9)), reachable_boot. }
  assert (H2 : 9 ∈ listeners
                 (service (subscribe 9 (boot he Examples.healthy_storage)).2)).
  { by left. }
  split_and!; [done..|].
  exact (proj1 (proj2 (toggle_flips_and_resynchronises _ 9 he H1 H2))).
Defined.

End SwitcherTheory.

(** ** The life of a lazy image *)

Module LazyImageMore.
Import LazyLoad LazyImageMachine.
Local Open Scope list_scope.

Lemma observer_callback_hasIntersected entries h :
  hasIntersected (observer_callback entries h)
  = hasIntersected h || existsb (fun entry => entry) entries.
Proof.
  unfold observer_callback. revert h.
  induction entries as [|entry entries IH]; intros h.
  - by rewrite orb_false_r.
  - cbn [foldl existsb]. rewrite IH. unfold observe_entry.
    cbn [hasIntersected]. destruct entry, (hasIntersected h); done.
Qed.

Lemma observer_callback_observer entries h :
  observer (observer_callback entries h) = observer h.
Proof.
  unfold observer_callback. revert h.
  induction entries as [|entry entries IH]; intros h; [done|].
  cbn [foldl]. by rewrite IH.
Qed.

Lemma observer_callback_last entries entry h :
  isIntersecting (observer_callback (entries ++ [entry]) h) = entry.
Proof. unfold observer_callback. by rewrite foldl_app. Qed.

Lemma step_hasIntersected ev c :
  hasIntersected (the_hook (step ev c))
  = hasIntersected (the_hook c) || intersects ev.
Proof.
  destruct ev as [entries|src| | |]; cbn [step the_hook intersects];
    rewrite ?orb_false_r; try done.
  apply observer_callback_hasIntersected.
Qed.

(** [hasIntersected] only ever goes from false to true: after any events
    it holds exactly when it held before or one of the entries the observer
    reported was intersecting, however often the element left the viewport
    afterwards.  [isIntersecting] is the last entry reported. *)
Theorem hasIntersected_is_sticky (evs : list event) (c c' : component) :
  run evs c = Some c' ->
  hasIntersected (the_hook c')
  = hasIntersected (the_hook c) || existsb intersects evs /\
  (forall entries entry,
     isIntersecting (the_hook (step (Intersection (entries ++ [entry])) c'))
     = entry).
Proof.
  intros Hrun. split; [|intros; apply observer_callback_last].
  revert c Hrun. induction evs as [|ev evs IH]; intros c.
  - intros [= <-]. by rewrite orb_false_r.
  - cbn [run existsb]. destruct (can_fire ev c); [|done].
    intros Hrun. rewrite (IH _ Hrun), step_hasIntersected.
    by rewrite orb_assoc.
Qed.

Lemma hasIntersected_is_sticky_witness :
  let c := mkComponent (mkHook false false (Some LazyImage_options))
             initial_image in
  let evs := [Intersection [false; true]; Intersection [false]] in
  exists c', run evs c = Some c' /\
    hasIntersected (the_hook c') = true /\
    isIntersecting (the_hook c') = false.
Proof.
  eexists. split; [reflexivity|].
  split; [|reflexivity].
  exact (proj1 (hasIntersected_is_sticky
    [Intersection [false; true]; Intersection [false]]
    (mkComponent (mkHook false false (Some LazyImage_options)) initial_image)
    _ eq_refl)).
Defined.

Lemma step_waits ev c :
  hasIntersected (the_hook c) = false ->
  imageSrc (the_image c) = None ->
  can_fire ev c = true -> intersects ev = false ->
  hasIntersected (the_hook (step ev c)) = false /\
  imageSrc (the_image (step ev c)) = None.
Proof.
  intros Hh Hsrc Hfire Hev. split.
  { by rewrite step_hasIntersected, Hh, Hev. }
  destruct ev as [entries|src| | |]; cbn [step the_image]; try done.
  unfold rerender, LazyImage_effect. cbn [the_image]. by rewrite Hh.
Qed.

(** Loading is lazy.  In a run-time with [IntersectionObserver], mounting
    creates an observer with the options of [LazyImage] and requests
    nothing; as long as no intersecting entry is reported, whatever else
    happens, no source is requested and no image element is rendered.  After
    an intersecting entry the next render requests the source. *)
Theorem image_waits_for_intersection (rt : runtime) (src : string)
    (evs : list event) (c' : component) :
  has_IntersectionObserver rt = true ->
  exists c,
    mount rt src = inr c /\
    observer (the_hook c) = Some LazyImage_options /\
    (run evs c = Some c' -> existsb intersects evs = false ->
     imageSrc (the_image c') = None /\ renders_img (the_image c') = false /\
     (forall entries src',
        existsb (fun entry => entry) entries = true ->
        imageSrc (the_image (step (Rerender src')
                               (step (Intersection entries) c')))
        = Some src')).
Proof.
  intros Hrt. eexists. split_and!.
  - unfold mount, useLazyLoad_effect, new_IntersectionObserver.
    rewrite Hrt. reflexivity.
  - done.
  - cbn [initial_hook isIntersecting hasIntersected].
    set (c := mkComponent _ _).
    assert (Hh : hasIntersected (the_hook c) = false) by done.
    assert (Hsrc : imageSrc (the_image c) = None) by done.
    clearbody c. revert c Hh Hsrc.
    induction evs as [|ev evs IH]; intros c Hh Hsrc.
    + intros [= <-] _. split_and!; [done| |].
      * unfold renders_img, no_imageSrc. by rewrite Hsrc.
      * intros entries src' Hentries. cbn [step rerender the_hook the_image].
        rewrite observer_callback_hasIntersected, Hh, Hentries.
        unfold LazyImage_effect, no_imageSrc. by rewrite Hsrc.
    + cbn [run existsb]. destruct (can_fire ev c) eqn:Hfire; [|done].
      intros Hrun [Hev Hevs]%orb_false_elim.
      destruct (step_waits ev c Hh Hsrc Hfire Hev) as [Hh' Hsrc'].
      by apply (IH _ Hh' Hsrc').
Qed.

Lemma image_waits_for_intersection_witness :
  has_IntersectionObserver (mkRuntime true) = true /\
  exists c,
    mount (mkRuntime true) "/thumbs/a" = inr c /\
    observer (the_hook c) = Some LazyImage_options.
Proof.
  split; [reflexivity|].
  destruct (image_waits_for_intersection (mkRuntime true) "/thumbs/a" []
              (mkComponent initial_hook initial_image) eq_refl)
    as (c & Hmount & Hobs & _).
  by exists c.
Defined.

Lemma step_keeps_source ev c s :
  imageSrc (the_image c) = Some s -> s <> "" ->
  imageSrc (the_image (step ev c)) = Some s.
Proof.
  intros Hsrc Hs.
  destruct ev as [entries|src| | |]; cbn [step the_image]; try done.
  unfold rerender, LazyImage_effect, no_imageSrc. cbn [the_image].
  rewrite Hsrc, bool_decide_eq_false_2 by done.
  by rewrite andb_false_r.
Qed.

(** The first source sticks: once a source that is not the empty string has
    been requested, no event changes it, not even a render with another
    value of the prop [src]. *)
Theorem requested_source_never_changes (evs : list event) (c c' : component)
    (s : string) :
  imageSrc (the_image c) = Some s ->
  s <> "" ->
  run evs c = Some c' ->
  imageSrc (the_image c') = Some s.
Proof.
  revert c. induction evs as [|ev evs IH]; intros c Hsrc Hs.
  - by intros [= <-].
  - cbn [run]. destruct (can_fire ev c); [|done].
    apply IH; [|done]. by apply step_keeps_source.
Qed.

Lemma requested_source_never_changes_witness :
  let c := mkComponent (mkHook true true None)
             (mkImage true false (Some "/a.jpg")) in
  imageSrc (the_image c) = Some "/a.jpg" /\ "/a.jpg" <> "" /\
  exists c', run [Rerender "/b.jpg"; ImgLoad] c = Some c' /\
    imageSrc (the_image c') = Some "/a.jpg".
Proof.
  split_and!; [reflexivity|discriminate|].
  eexists. split; [reflexivity|].
  exact (requested_source_never_changes [Rerender "/b.jpg"; ImgLoad]
           (mkComponent (mkHook true true None)
              (mkImage true false (Some "/a.jpg")))
           _ "/a.jpg" eq_refl ltac:(discriminate) eq_refl).
Defined.

Lemma step_flags ev c :
  can_fire ev c = true ->
  (isLoading (the_image c) = false ->
   isLoading (the_image (step ev c)) = false) /\
  (hasError (the_image c) = true ->
   hasError (the_image (step ev c)) = true /\
   isLoading (the_image (step ev c)) = isLoading (the_image c) /\
   ev <> ImgLoad /\ ev <> ImgError).
Proof.
  intros Hfire.
  destruct ev as [entries|src| | |]; cbn [step the_image]; split; try done.
  - intros Hl. unfold rerender, LazyImage_effect. cbn [the_image].
    by destruct (_ && _).
  - intros He. unfold rerender, LazyImage_effect. cbn [the_image].
    by destruct (_ && _).
  - intros He. unfold can_fire, renders_img in Hfire.
    rewrite He in Hfire. by rewrite andb_false_r in Hfire.
  - intros He. unfold can_fire, renders_img in Hfire.
    rewrite He in Hfire. by rewrite andb_false_r in Hfire.
Qed.

(** The placeholder never comes back and a failure is final.  Once
    [isLoading] is false it stays false.  Once [hasError] is true it stays
    true: the fallback is shown, the image element is out of the document,
    so that no load or error event can follow any more, and nothing is ever
    requested again for it. *)
Theorem load_outcome_is_final (evs : list event) (c c' : component) :
  run evs c = Some c' ->
  (isLoading (the_image c) = false ->
   isLoading (the_image c') = false /\
   shows_placeholder (the_image c') = false) /\
  (hasError (the_image c) = true ->
   hasError (the_image c') = true /\
   shows_error (the_image c') = true /\
   renders_img (the_image c') = false /\
   shows_placeholder (the_image c') = false /\
   isLoading (the_image c') = isLoading (the_image c) /\
   Forall (fun ev => ev <> ImgLoad /\ ev <> ImgError) evs).
Proof.
  revert c. induction evs as [|ev evs IH]; intros c.
  - intros [= <-]. split.
    + intros Hl. unfold shows_placeholder. by rewrite Hl.
    + intros He. unfold shows_error, renders_img, shows_placeholder.
      rewrite He, !andb_false_r. by split_and!.
  - cbn [run]. destruct (can_fire ev c) eqn:Hfire; [|done].
    intros Hrun. destruct (IH _ Hrun) as [IHl IHe].
    destruct (step_flags ev c Hfire) as [Hl He]. split.
    + intros Hload. by apply IHl, Hl.
    + intros Herr. destruct (He Herr) as (He' & Hl' & Hne1 & Hne2).
      destruct (IHe He') as (? & ? & ? & ? & Hsame & Hall).
      split_and!; try done; [congruence|by constructor].
Qed.

Lemma load_outcome_is_final_witness :
  let c := mkComponent (mkHook true true None)
             (mkImage true false (Some "/a.jpg")) in
  exists c', run [ImgError; Rerender "/a.jpg"; Intersection []] c = None /\
    run [ImgError; Rerender "/a.jpg"] c = Some c' /\
    hasError (the_image c') = true /\ renders_img (the_image c') = false.
Proof.
  eexists. split; [reflexivity|]. split; [reflexivity|].
  pose proof (load_outcome_is_final [Rerender "/a.jpg"]
    (mkComponent (mkHook true true None) (mkImage false true (Some "/a.jpg")))
    _ eq_refl) as [_ H].
  destruct (H eq_refl) as (H1 & _ & H3 & _).
  split; [exact H1|exact H3].
Defined.

End LazyImageMore.

(** ** Swipes and page transitions *)

Module AppTheory.
Import App.
Local Open Scope Z_scope.

Lemma indexOf_range paths pathname :
  -1 <= indexOf paths pathname < Z.of_nat (List.length paths).
Proof.
  induction paths as [|p paths IH]; [simpl; lia|].
  cbn [indexOf List.length]. case_decide; [lia|].
  case_bool_decide; lia.
Qed.

Lemma indexOf_absent paths pathname :
  pathname ∉ paths -> indexOf paths pathname = -1.
Proof.
  induction paths as [|p paths IH]; [done|].
  intros [Hne Hnotin]%not_elem_of_cons. cbn [indexOf].
  rewrite decide_False by done. rewrite IH by done.
  by rewrite bool_decide_eq_true_2.
Qed.

Lemma path_at_in_range index :
  0 <= index < 5 ->
  exists p, path_at index = Some p /\ p ∈ navigationPaths.
Proof.
  intros Hi. unfold path_at. rewrite bool_decide_eq_true_2 by lia.
  destruct (lookup_lt_is_Some_2 navigationPaths (Z.to_nat index)) as [p Hp].
  { simpl. lia. }
  exists p. split; [done|]. by eapply list_elem_of_lookup_2.
Qed.

(** A swipe is safe.  The end of a touch calls [navigate] at most once, and
    only with one of the five paths of the application, whatever the current
    path.  It navigates nowhere when the finger moved by 50 pixels or less,
    when it did not move at all, and also when the touch started or ended at
    the coordinate 0, which the code takes for no touch. *)
Theorem swipe_is_safe (t : touch) (pathname : string) :
  (List.length (onTouchEnd t pathname) <= 1)%nat /\
  (forall target, target ∈ onTouchEnd t pathname ->
     exists p, target = Some p /\ p ∈ navigationPaths) /\
  (forall start finish,
     touchStart t = Some start -> touchEnd t = Some finish ->
     -50 <= start - finish <= 50 -> onTouchEnd t pathname = []) /\
  (touchEnd t = None -> onTouchEnd t pathname = []) /\
  (touchStart t = Some 0 \/ touchEnd t = Some 0 ->
   onTouchEnd t pathname = []).
Proof.
  assert (Hnil : onTouchEnd t pathname = [] ->
    (List.length (onTouchEnd t pathname) <= 1)%nat /\
    (forall target, target ∈ onTouchEnd t pathname ->
       exists p, target = Some p /\ p ∈ navigationPaths) /\
    (forall start finish,
       touchStart t = Some start -> touchEnd t = Some finish ->
       -50 <= start - finish <= 50 -> onTouchEnd t pathname = []) /\
    (touchEnd t = None -> onTouchEnd t pathname = []) /\
    (touchStart t = Some 0 \/ touchEnd t = Some 0 ->
     onTouchEnd t pathname = [])).
  { intros ->. split_and!; try done; [simpl; lia|].
    by intros ? ?%elem_of_nil. }
  pose proof (indexOf_range navigationPaths pathname) as Hidx.
  change (Z.of_nat (List.length navigationPaths)) with 5 in Hidx.
  revert Hnil. unfold onTouchEnd, minSwipeDistance.
  change (Z.of_nat (List.length navigationPaths)) with 5.
  destruct (touchStart t) as [start|], (touchEnd t) as [finish|];
    cbn [falsy orb]; intros Hnil; try (by apply Hnil).
  - destruct (bool_decide (start = 0)) eqn:Hs0; [by apply Hnil|].
    destruct (bool_decide (finish = 0)) eqn:Hf0; [by apply Hnil|].
    cbn [orb] in *. clear Hnil.
    apply bool_decide_eq_false in Hs0, Hf0.
    set (i := indexOf navigationPaths pathname) in *.
    split_and!.
    + repeat case_bool_decide; cbn [andb app List.length]; lia.
    + intros target.
      repeat case_bool_decide; cbn [andb app]; try lia;
        rewrite ?elem_of_cons, ?elem_of_nil; intros Hin;
        destruct_or?; try done; subst target; apply path_at_in_range; lia.
    + intros ? ? [= <-] [= <-] Hd.
      rewrite (bool_decide_eq_false_2 (start - finish > 50)) by lia.
      rewrite (bool_decide_eq_false_2 (start - finish < - (50))) by lia.
      done.
    + done.
    + intros [[= ?]|[= ?]]; done.
  - destruct (bool_decide (start = 0)); by apply Hnil.
Qed.

Lemma swipe_is_safe_witness :
  let t := swipe initial_touch 200 [190; 180] 160 in
  touchStart t = Some 200 /\ touchEnd t = Some 160 /\
  -50 <= 200 - 160 <= 50 /\
  onTouchEnd t "/articles" = [].
Proof.
  cbv zeta. split; [reflexivity|]. split; [reflexivity|]. split; [lia|].
  exact (proj1 (proj2 (proj2
    (swipe_is_safe (swipe initial_touch 200 [190; 180] 160) "/articles")))
    200 160 eq_refl eq_refl ltac:(lia)).
Defined.

Lemma indexOf_lookup paths (i : nat) pathname :
  NoDup paths -> paths !! i = Some pathname ->
  indexOf paths pathname = Z.of_nat i.
Proof.
  intros Hnd. revert i.
  induction Hnd as [|p paths Hnotin Hnd IH]; intros i Hi; [done|].
  cbn [indexOf]. destruct i as [|i]; cbn in Hi.
  - injection Hi as ->. by rewrite decide_True.
  - rewrite decide_False.
    2:{ intros ->. apply Hnotin. by eapply list_elem_of_lookup_2. }
    rewrite (IH i Hi). rewrite bool_decide_eq_false_2 by lia. lia.
Qed.

Lemma navigationPaths_NoDup : NoDup navigationPaths.
Proof. apply (bool_decide_unpack _). by vm_compute. Qed.

Lemma onTouchEnd_moved t start finish pathname :
  touchStart t = Some start -> touchEnd t = Some finish ->
  start <> 0 -> finish <> 0 ->
  onTouchEnd t pathname =
    ((if bool_decide (start - finish > 50)
         && bool_decide (indexOf navigationPaths pathname < 4)
      then [path_at (indexOf navigationPaths pathname + 1)] else [])
     ++
     (if bool_decide (start - finish < -50)
         && bool_decide (indexOf navigationPaths pathname > 0)
      then [path_at (indexOf navigationPaths pathname - 1)] else []))%list.
Proof.
  intros Hs Hf Hs0 Hf0. unfold onTouchEnd. rewrite Hs, Hf. cbn [falsy].
  by rewrite !bool_decide_eq_false_2 by done.
Qed.

(** Where a swipe leads.  On the page at position [i] of the five, a touch
    that moved left by more than 50 pixels navigates to the page at [i + 1],
    and on the last page nowhere; a touch that moved right by more than 50
    pixels navigates to the page at [i - 1], and on the first page
    nowhere. *)
Theorem swipe_moves_to_the_neighbour (t : touch) (start finish : Z)
    (i : nat) (pathname : string) :
  touchStart t = Some start -> touchEnd t = Some finish ->
  start <> 0 -> finish <> 0 ->
  navigationPaths !! i = Some pathname ->
  (start - finish > 50 ->
   onTouchEnd t pathname =
     match navigationPaths !! S i with
     | Some next => [Some next]
     | None => []
     end) /\
  (start - finish < -50 ->
   onTouchEnd t pathname =
     match i with
     | O => []
     | S j => [navigationPaths !! j]
     end).
Proof.
  intros Hs Hf Hs0 Hf0 Hi.
  rewrite (onTouchEnd_moved t start finish pathname Hs Hf Hs0 Hf0).
  rewrite (indexOf_lookup _ _ _ navigationPaths_NoDup Hi).
  assert (Hlt : (i < 5)%nat).
  { apply lookup_lt_Some in Hi. exact Hi. }
  split; intros Hd.
  - rewrite (bool_decide_eq_true_2 (start - finish > 50)) by done.
    rewrite (bool_decide_eq_false_2 (start - finish < -50)) by lia.
    cbn [andb]. rewrite app_nil_r.
    do 5 (destruct i as [|i]; [reflexivity|]). lia.
  - rewrite (bool_decide_eq_false_2 (start - finish > 50)) by lia.
    rewrite (bool_decide_eq_true_2 (start - finish < -50)) by done.
    cbn [andb app].
    do 5 (destruct i as [|i]; [reflexivity|]). lia.
Qed.

Lemma swipe_moves_to_the_neighbour_witness :
  onTouchEnd (swipe initial_touch 300 [250; 200] 120) "/exhibitions"
    = [Some "/student-artwork"] /\
  onTouchEnd (swipe initial_touch 120 [200] 300) "/exhibitions"
    = [Some "/articles"].
Proof.
  split.
  - exact (proj1 (swipe_moves_to_the_neighbour
      (swipe initial_touch 300 [250; 200] 120) 300 120 2 "/exhibitions"
      eq_refl eq_refl ltac:(lia) ltac:(lia) eq_refl) ltac:(lia)).
  - exact (proj2 (swipe_moves_to_the_neighbour
      (swipe initial_touch 120 [200] 300) 120 300 2 "/exhibitions"
      eq_refl eq_refl ltac:(lia) ltac:(lia) eq_refl) ltac:(lia)).
Defined.

(** A swipe on a path that is none of the five.  [indexOf] answers -1, which
    passes the test for a left swipe: the touch navigates to the first page,
    ["/"].  A right swipe navigates nowhere. *)
Theorem swipe_on_unknown_path (t : touch) (start finish : Z)
    (pathname : string) :
  touchStart t = Some start -> touchEnd t = Some finish ->
  start <> 0 -> finish <> 0 ->
  pathname ∉ navigationPaths ->
  (start - finish > 50 -> onTouchEnd t pathname = [Some "/"]) /\
  (start - finish < -50 -> onTouchEnd t pathname = []).
Proof.
  intros Hs Hf Hs0 Hf0 Hp.
  rewrite (onTouchEnd_moved t start finish pathname Hs Hf Hs0 Hf0).
  rewrite (indexOf_absent _ _ Hp).
  split; intros Hd.
  - rewrite (bool_decide_eq_true_2 (start - finish > 50)) by done.
    rewrite (bool_decide_eq_false_2 (start - finish < -50)) by lia.
    reflexivity.
  - rewrite (bool_decide_eq_false_2 (start - finish > 50)) by lia.
    rewrite (bool_decide_eq_true_2 (start - finish < -50)) by done.
    reflexivity.
Qed.

Lemma swipe_on_unknown_path_witness :
  onTouchEnd (swipe initial_touch 300 [] 100) "/articles/" = [Some "/"].
Proof.
  refine (proj1 (swipe_on_unknown_path
    (swipe initial_touch 300 [] 100) 300 100 "/articles/"
    eq_refl eq_refl ltac:(lia) ltac:(lia) _) ltac:(lia)).
  apply (bool_decide_unpack _). by vm_compute.
Defined.

End AppTheory.

(** ** The sliding pages *)

Module PageTheory.
Import I18n Page.

(** A page leaves on the side opposite the one it enters from.  A render
    asks the service for the direction and changes nothing; the page is
    right-to-left exactly in Hebrew.  For every direction of navigation the
    exit position is the entry position of the other direction, is the
    entry position in the other writing direction, and is never the entry
    position itself; every direction other than ["forward"] is treated as
    backward. *)
Theorem page_exits_opposite_its_entry (w : world) (direction : string) :
  exists r,
    render_isRTL w = (Return r, w) /\
    (r = true <-> currentLanguage (service w) = he) /\
    exit_x r direction = initial_x (negb r) direction /\
    exit_x r direction <> initial_x r direction /\
    exit_x r direction
      = initial_x r (if decide (direction = "forward")
                     then "backward" else "forward") /\
    (direction <> "forward" ->
     initial_x r direction = initial_x r "backward" /\
     exit_x r direction = exit_x r "backward").
Proof.
  unfold render_isRTL, getDirection, this, mbind, M_bind, mret, M_ret.
  destruct (decide (currentLanguage (service w) = he)) as [Hhe|Hen].
  - exists true. cbn [isRTL]. unfold exit_x, initial_x.
    split_and!; try done; destruct (decide (direction = "forward"));
      try done.
  - exists false. cbn [isRTL]. unfold exit_x, initial_x.
    split_and!; try done; try (split; [done|by intros ?]);
      destruct (decide (direction = "forward")); try done.
Qed.

End PageTheory.
